(** * @bnk/kv-store: the store engine and the file adapter

    A shallow embedding of [key-value-store.ts], [adapters/file-adapter.ts]
    and [types/index.ts].  Every method is a function from the state it
    touches to a completion (normal or abrupt) and the state it leaves behind,
    so that whatever a method mutated before it threw stays visible.

    Scope.  An [async] method runs to its end without another caller getting
    in at an [await].  Validators, hooks and adapters are code of the caller:
    a validator is a function of the value, a hook is known by how its call
    comes back, an adapter has a state of its own and the world to act on;
    none of them calls back into the store that is calling it.  The interval
    timer of the constructor is recorded, and a tick of it is a [sync] between
    two calls.  Writing a file always succeeds.

    An object is known by its own enumerable properties, and its prototype is
    the one it was created with.  What an access finds beyond the own
    properties is therefore not in the model: the functions and the
    ["__proto__"] accessor that a plain object inherits from
    [Object.prototype], and the [length] and the methods of an array.  The
    statements about the caches of the adapters say which keys they are about
    ([inherited], [proto_key]), and take the cache to be a plain object. *)

From Stdlib Require Import ZArith NArith String Ascii List Bool Lia DecimalString.
From stdpp Require Import gmap strings.
Import ListNotations.
Set Warnings "-register-all".
Local Open Scope Z_scope.
Local Open Scope string_scope.

(** ** JavaScript values

    Numbers are the integral ones, carried as [Z]: the store only compares a
    number with zero and adds one to it, and the spec reads the counter as a
    signed integer.  An object is its list of own enumerable properties in
    the engine's enumeration order (array indices ascending, then the other
    keys in creation order); an array is such an object together with its
    [length].  [VBack n] is a reference to the [n]-th enclosing object: it is
    how a finite tree spells a cyclic object graph. *)

Inductive object_kind : Type :=
| Plain
| Array (length : N).

Inductive value : Type :=
| VUndefined
| VNull
| VBool (b : bool)
| VNum (n : Z)
| VStr (s : string)
| VBigInt (n : Z)
| VObj (kind : object_kind) (props : list (string * value))
| VBack (up : nat).

Definition typeof (v : value) : string :=
  match v with
  | VUndefined => "undefined"
  | VNull => "object"
  | VBool _ => "boolean"
  | VNum _ => "number"
  | VStr _ => "string"
  | VBigInt _ => "bigint"
  | VObj _ _ => "object"
  | VBack _ => "object"
  end.

(** What a [throw] carries, told apart by who created it. *)
Inductive exn : Type :=
| Error (message : string)      (* [new Error(message)] in this package *)
| Builtin (name : string)       (* raised by the runtime itself *)
| Thrown (payload : value).     (* raised by code the caller supplied *)

Inductive completion (X : Type) : Type :=
| Normal (x : X)
| Abrupt (e : exn).
Arguments Normal {X} x.
Arguments Abrupt {X} e.

(** *** Property keys *)

Definition digit (c : ascii) : option N :=
  let n := N_of_ascii c in
  if ((48 <=? n) && (n <=? 57))%N then Some (n - 48)%N else None.

Fixpoint digits (s : string) (acc : N) : option N :=
  match s with
  | EmptyString => Some acc
  | String c r =>
      match digit c with
      | Some d => digits r (10 * acc + d)%N
      | None => None
      end
  end.

(** A key is an array index when it is the canonical decimal spelling of an
    integer below 2^32 - 1. *)
Definition array_index (k : string) : option N :=
  match k with
  | EmptyString => None
  | String c r =>
      if (Ascii.eqb c "0" && negb (String.eqb r ""))%bool then None
      else match digits k 0 with
           | Some n => if (n <? 2 ^ 32 - 1)%N then Some n else None
           | None => None
           end
  end.

Definition string_of_N (n : N) : string := NilZero.string_of_uint (N.to_uint n).

(** [true] when a new key [k] is enumerated before the existing key [k']. *)
Definition enumerated_before (k k' : string) : bool :=
  match array_index k, array_index k' with
  | Some i, Some j => (i <? j)%N
  | Some _, None => true
  | None, _ => false
  end.

Fixpoint prop_get (ps : list (string * value)) (k : string) : option value :=
  match ps with
  | [] => None
  | (k', x) :: r => if String.eqb k k' then Some x else prop_get r k
  end.

(** [o[k] = v] on the own properties of [o]. *)
Fixpoint prop_set (ps : list (string * value)) (k : string) (v : value)
  : list (string * value) :=
  match ps with
  | [] => [(k, v)]
  | (k', x) :: r =>
      if String.eqb k k' then (k, v) :: r
      else if enumerated_before k k' then (k, v) :: (k', x) :: r
      else (k', x) :: prop_set r k v
  end.

(** [delete o[k]] *)
Fixpoint prop_delete (ps : list (string * value)) (k : string)
  : list (string * value) :=
  match ps with
  | [] => []
  | (k', x) :: r => if String.eqb k k' then r else (k', x) :: prop_delete r k
  end.

Definition grow (kind : object_kind) (k : string) : object_kind :=
  match kind, array_index k with
  | Array len, Some i => Array (N.max len (i + 1))
  | _, _ => kind
  end.

(** ** JSON *)

Inductive json : Type :=
| JNull
| JBool (b : bool)
| JNum (n : Z)
| JStr (s : string)
| JArr (items : list json)
| JObj (members : list (string * json)).

(** The characters of a file as [JSON.parse] sees them: a JSON text, carried
    as the document it spells (white space is immaterial), or anything else. *)
Inductive text : Type :=
| Malformed (chars : string)
| Encodes (doc : json).

(** Members of an object whose value serialises to nothing are left out. *)
Fixpoint present (ms : list (string * option json)) : list (string * json) :=
  match ms with
  | [] => []
  | (k, Some j) :: r => (k, j) :: present r
  | (_, None) :: r => present r
  end.

(** Elements of an array: holes and values that serialise to nothing become
    [null]; properties that are not indices are not elements. *)
Fixpoint elements_from (next : N) (ms : list (string * option json)) : list json :=
  match ms with
  | [] => []
  | (k, j) :: r =>
      match array_index k with
      | Some i =>
          repeat JNull (N.to_nat (i - next))
            ++ match j with Some j' => j' | None => JNull end
            :: elements_from (i + 1) r
      | None => elements_from next r
      end
  end.

Definition array_elements (len : N) (ms : list (string * option json)) : list json :=
  let items := elements_from 0 ms in
  items ++ repeat JNull (N.to_nat len - List.length items).

Definition serialised (kind : object_kind) (k : string) : bool :=
  match kind with
  | Plain => true
  | Array _ => match array_index k with Some _ => true | None => false end
  end.

(** [JSON.stringify(v)]: [Normal None] is the result [undefined]. *)
Fixpoint JSON_stringify (v : value) : completion (option json) :=
  match v with
  | VUndefined => Normal None
  | VNull => Normal (Some JNull)
  | VBool b => Normal (Some (JBool b))
  | VNum n => Normal (Some (JNum n))
  | VStr s => Normal (Some (JStr s))
  | VBigInt _ => Abrupt (Builtin "TypeError: cannot serialize BigInt")
  | VBack _ => Abrupt (Builtin "TypeError: cyclic structure")
  | VObj kind ps =>
      let members :=
        (fix members (ps : list (string * value))
           : completion (list (string * option json)) :=
           match ps with
           | [] => Normal []
           | (k, x) :: r =>
               match (if serialised kind k then JSON_stringify x else Normal None) with
               | Abrupt e => Abrupt e
               | Normal j =>
                   match members r with
                   | Abrupt e => Abrupt e
                   | Normal js => Normal ((k, j) :: js)
                   end
               end
           end) ps in
      match members with
      | Abrupt e => Abrupt e
      | Normal ms =>
          Normal (Some match kind with
                       | Plain => JObj (present ms)
                       | Array len => JArr (array_elements len ms)
                       end)
      end
  end.

Fixpoint indexed (next : N) (xs : list value) : list (string * value) :=
  match xs with
  | [] => []
  | x :: r => (string_of_N next, x) :: indexed (next + 1) r
  end.

(** The array literal [[x0, x1, ...]]. *)
Definition array_of (xs : list value) : value :=
  VObj (Array (N.of_nat (List.length xs))) (indexed 0 xs).

(** The value a JSON document denotes. *)
Fixpoint value_of_json (j : json) : value :=
  match j with
  | JNull => VNull
  | JBool b => VBool b
  | JNum n => VNum n
  | JStr s => VStr s
  | JArr items => array_of (List.map value_of_json items)
  | JObj members =>
      VObj Plain
        ((fix build (ms : list (string * json)) (acc : list (string * value)) :=
            match ms with
            | [] => acc
            | (k, j') :: r => build r (prop_set acc k (value_of_json j'))
            end) members [])
  end.

Definition JSON_parse (t : text) : completion value :=
  match t with
  | Malformed _ => Abrupt (Builtin "SyntaxError: JSON Parse error")
  | Encodes doc => Normal (value_of_json doc)
  end.

(** Property access on an arbitrary receiver, as strict-mode code sees it.
    [js_get], [js_set] and [js_delete] act on the own properties: they are
    [o[k]], [o[k] = v] and [delete o[k]] for a key that [o] owns, and for a
    key that neither [o] owns nor its prototype answers to. *)
Definition js_get (o : value) (k : string) : completion value :=
  match o with
  | VObj _ ps => Normal (match prop_get ps k with Some x => x | None => VUndefined end)
  | VUndefined | VNull => Abrupt (Builtin "TypeError: not an object")
  | _ => Normal VUndefined
  end.

Definition js_set (o : value) (k : string) (v : value) : completion value :=
  match o with
  | VObj kind ps => Normal (VObj (grow kind k) (prop_set ps k v))
  | _ => Abrupt (Builtin "TypeError: cannot create property")
  end.

Definition js_delete (o : value) (k : string) : completion value :=
  match o with
  | VObj kind ps => Normal (VObj kind (prop_delete ps k))
  | VUndefined | VNull => Abrupt (Builtin "TypeError: not an object")
  | _ => Normal o
  end.

(** [{ ...o }]: the own enumerable properties, copied into a plain object. *)
Definition spread (o : value) : list (string * value) :=
  match o with
  | VObj _ ps => ps
  | _ => []
  end.

(** ** [Map<string, unknown>]: entries in insertion order *)

Fixpoint Map_find (m : list (string * value)) (k : string) : option value :=
  match m with
  | [] => None
  | (k', x) :: r => if String.eqb k k' then Some x else Map_find r k
  end.

Definition Map_get (m : list (string * value)) (k : string) : value :=
  match Map_find m k with Some x => x | None => VUndefined end.

Definition Map_has (m : list (string * value)) (k : string) : bool :=
  match Map_find m k with Some _ => true | None => false end.

(** An existing key keeps its place; a new one goes last. *)
Fixpoint Map_set (m : list (string * value)) (k : string) (v : value)
  : list (string * value) :=
  match m with
  | [] => [(k, v)]
  | (k', x) :: r => if String.eqb k k' then (k, v) :: r else (k', x) :: Map_set r k v
  end.

Fixpoint Map_delete (m : list (string * value)) (k : string)
  : list (string * value) :=
  match m with
  | [] => []
  | (k', x) :: r => if String.eqb k k' then r else (k', x) :: Map_delete r k
  end.

(** ** The process around the store *)

(** How the promise that a hook handed back settles. *)
Inductive promise : Type :=
| Fulfilled
| Rejected (reason : value).

Record world : Type := {
  console : list (string * exn);   (* lines written by [console.error] *)
  floating : list promise;         (* promises nobody awaits or catches *)
  intervals : list (option Z);     (* the [setInterval] timers by identity, each
                                      with its period until it is cleared *)
  clock : Z;                       (* what the next [Date.now()] reads *)
  ticks : list Z;                  (* what the reads after it will *)
  files : gmap string text         (* the file system *)
}.

Definition log_error (label : string) (e : exn) (w : world) : world :=
  {| console := console w ++ [(label, e)]; floating := floating w;
     intervals := intervals w; clock := clock w; ticks := ticks w; files := files w |}.

Definition let_float (p : promise) (w : world) : world :=
  {| console := console w; floating := floating w ++ [p];
     intervals := intervals w; clock := clock w; ticks := ticks w; files := files w |}.

(** [setInterval(f, ms)]: the new timer is the next one; its identity is its
    place in the list. *)
Definition setInterval (ms : Z) (w : world) : nat * world :=
  (List.length (intervals w),
   {| console := console w; floating := floating w;
      intervals := intervals w ++ [Some ms]; clock := clock w; ticks := ticks w;
      files := files w |}).

Fixpoint clear_at (timer : nat) (l : list (option Z)) : list (option Z) :=
  match l, timer with
  | [], _ => []
  | _ :: r, O => None :: r
  | x :: r, S n => x :: clear_at n r
  end.

(** [clearInterval(timer)]: that very timer stops; clearing it again, or
    clearing a timer that was never set, does nothing. *)
Definition clearInterval (timer : nat) (w : world) : world :=
  {| console := console w; floating := floating w;
     intervals := clear_at timer (intervals w); clock := clock w; ticks := ticks w;
     files := files w |}.

(** Time goes by between two reads of [Date.now()]: the next read sees the
    next reading (the same one again when none is left). *)
Definition elapse (w : world) : world :=
  {| console := console w; floating := floating w; intervals := intervals w;
     clock := match ticks w with t :: _ => t | [] => clock w end;
     ticks := match ticks w with _ :: r => r | [] => [] end;
     files := files w |}.

Definition write_file (path : string) (t : text) (w : world) : world :=
  {| console := console w; floating := floating w;
     intervals := intervals w; clock := clock w; ticks := ticks w;
     files := <[path := t]> (files w) |}.

(** ** A state monad with abrupt completion *)

Definition M (S X : Type) : Type := S -> completion X * S.

Definition ret {S X} (x : X) : M S X := fun s => (Normal x, s).
Definition throw {S X} (e : exn) : M S X := fun s => (Abrupt e, s).
Definition bind {S X Y} (c : M S X) (k : X -> M S Y) : M S Y :=
  fun s => match c s with
           | (Normal x, s') => k x s'
           | (Abrupt e, s') => (Abrupt e, s')
           end.
Definition gets {S X} (f : S -> X) : M S X := fun s => (Normal (f s), s).
Definition modify {S} (f : S -> S) : M S unit := fun s => (Normal tt, f s).
Definition lift {S X} (c : completion X) : M S X := fun s => (c, s).
Definition try_catch {S X} (c : M S X) (handler : exn -> M S X) : M S X :=
  fun s => match c s with
           | (Normal x, s') => (Normal x, s')
           | (Abrupt e, s') => handler e s'
           end.

Declare Scope js_scope.
Delimit Scope js_scope with js.
Notation "x <- c ;; k" := (bind c (fun x => k))
  (at level 100, c at next level, right associativity) : js_scope.
Notation "c ;;; k" := (bind c (fun _ => k))
  (at level 100, right associativity) : js_scope.

(** [Date.now()], for any code that runs in the world: the reading of the
    clock; the next read may see another. *)
Definition Date_now {S} : M (S * world) Z :=
  fun sw => (Normal (clock (snd sw)), (fst sw, elapse (snd sw))).

(** ** [types/index.ts] *)

(** What a call into caller-supplied synchronous code comes back with. *)
Inductive returned : Type :=
| Returns (v : value)
| Throws (payload : value).

Definition ValueValidator : Type := value -> returned.

(** A hook returns nothing, returns a promise, or throws. *)
Inductive hooked : Type :=
| Void
| Pending (p : promise)
| Raises (payload : value).

Record KeyValueStoreHooks : Type := {
  onUpdate : option (string -> value -> hooked);
  onDelete : option (string -> hooked);
  onBackup : option (Z -> Z -> hooked)
}.

Definition no_hooks : KeyValueStoreHooks :=
  {| onUpdate := None; onDelete := None; onBackup := None |}.

(** The adapter object has state [A]; its methods also act on the world.
    [all] is looked up dynamically by the store and [backup] is optional. *)
Record KeyValueAdapterWithBackup (A : Type) : Type := {
  adapter_init : M (A * world) unit;
  adapter_get : string -> M (A * world) value;
  adapter_set : string -> value -> M (A * world) unit;
  adapter_delete : string -> M (A * world) unit;
  adapter_all : option (M (A * world) (list (string * value)));
  adapter_backup : option (M (A * world) unit)
}.
Arguments adapter_init {A}.
Arguments adapter_get {A}.
Arguments adapter_set {A}.
Arguments adapter_delete {A}.
Arguments adapter_all {A}.
Arguments adapter_backup {A}.

Record KeyValueStoreConfig (A : Type) : Type := {
  config_adapter : option A;
  config_hooks : option KeyValueStoreHooks;
  syncIntervalMs : option Z;
  enableVersioning : option bool
}.
Arguments config_adapter {A}.
Arguments config_hooks {A}.
Arguments syncIntervalMs {A}.
Arguments enableVersioning {A}.

(** ** [key-value-store.ts] *)

Section Store.

Context {A : Type}.

Record KeyValueStore : Type := {
  memoryMap : list (string * value);
  adapter : option A;
  hooks : KeyValueStoreHooks;
  version : Z;
  syncInterval : option nat       (* the timer [setInterval] handed back *)
}.

Definition with_memoryMap (m : list (string * value)) (s : KeyValueStore) : KeyValueStore :=
  {| memoryMap := m; adapter := adapter s; hooks := hooks s;
     version := version s; syncInterval := syncInterval s |}.

Definition with_adapter (a : option A) (s : KeyValueStore) : KeyValueStore :=
  {| memoryMap := memoryMap s; adapter := a; hooks := hooks s;
     version := version s; syncInterval := syncInterval s |}.

Definition with_version (n : Z) (s : KeyValueStore) : KeyValueStore :=
  {| memoryMap := memoryMap s; adapter := adapter s; hooks := hooks s;
     version := n; syncInterval := syncInterval s |}.

(** The methods run on the store object and the world together. *)
Definition Store (X : Type) : Type := M (KeyValueStore * world) X.

Definition this {X} (f : KeyValueStore -> X) : Store X :=
  gets (fun sw => f (fst sw)).

Definition update (f : KeyValueStore -> KeyValueStore) : Store unit :=
  modify (fun sw => (f (fst sw), snd sw)).

Definition in_world (f : world -> world) : Store unit :=
  modify (fun sw => (fst sw, f (snd sw))).

Definition console_error (label : string) (err : exn) : Store unit :=
  in_world (log_error label err).

(** [void hook?.(...)]: the call is made if the hook is there; what it
    returns is dropped on the floor, a promise included. *)
Definition void_call (outcome : option hooked) : Store unit :=
  match outcome with
  | None => ret tt
  | Some Void => ret tt
  | Some (Pending p) => in_world (let_float p)
  | Some (Raises payload) => throw (Thrown payload)
  end.

(** Calling caller-supplied synchronous code. *)
Definition call (r : returned) : Store value :=
  match r with
  | Returns v => ret v
  | Throws payload => throw (Thrown payload)
  end.

Definition string_key (key : value) : Store string :=
  match key with
  | VStr k => ret k
  | _ => throw (Error "Key must be a string")
  end.

Context (the : KeyValueAdapterWithBackup A).

(** [await this.adapter.method(...)] *)
Definition await {X} (method : M (A * world) X) : Store X :=
  fun sw =>
    match adapter (fst sw) with
    | None => (Abrupt (Builtin "TypeError: undefined is not an object"), sw)
    | Some a =>
        match method (a, snd sw) with
        | (r, (a', w')) => (r, (with_adapter (Some a') (fst sw), w'))
        end
    end.

Definition constructor (config : KeyValueStoreConfig A) (w : world)
  : KeyValueStore * world :=
  let s := {| memoryMap := [];
              adapter := config_adapter config;
              hooks := match config_hooks config with Some h => h | None => no_hooks end;
              version := match enableVersioning config with Some true => 0 | _ => -1 end;
              syncInterval := None |} in
  match syncIntervalMs config, adapter s with
  | Some ms, Some _ =>
      if Z.eqb ms 0 then (s, w)
      else let (timer, w') := setInterval ms w in
           ({| memoryMap := memoryMap s; adapter := adapter s; hooks := hooks s;
               version := version s; syncInterval := Some timer |}, w')
  | _, _ => (s, w)
  end.

Fixpoint load (entries : list (string * value)) : Store unit :=
  match entries with
  | [] => ret tt
  | (k, v) :: r =>
      (s <- this (fun s => s) ;;
       update (with_memoryMap (Map_set (memoryMap s) k v)) ;;;
       load r)%js
  end.

Definition init : Store unit :=
  (a <- this adapter ;;
   match a with
   | None => ret tt
   | Some _ =>
       await (adapter_init the) ;;;
       match adapter_all the with
       | None => ret tt
       | Some all =>
           loadedData <- await all ;;
           load loadedData ;;;
           v <- this version ;;
           match prop_get loadedData "__version__" with
           | Some (VNum maybeVersion) =>
               if (0 <=? v)%Z then update (with_version maybeVersion) else ret tt
           | _ => ret tt
           end
       end
   end)%js.

Definition get (key : value) (validator : option ValueValidator) : Store value :=
  (k <- string_key key ;;
   val <- this (fun s => Map_get (memoryMap s) k) ;;
   match val with
   | VUndefined => ret VUndefined
   | _ =>
       match validator with
       | None => ret val
       | Some validate => call (validate val)
       end
   end)%js.

Definition set (key : value) (v : value) (validator : option ValueValidator)
  : Store value :=
  (k <- string_key key ;;
   match JSON_stringify v with
   | Abrupt _ => throw (Error "Value must be JSON serializable")
   | Normal _ => ret tt
   end ;;;
   validatedValue <- match validator with
                     | Some validate => call (validate v)
                     | None => ret v
                     end ;;
   s <- this (fun s => s) ;;
   update (with_memoryMap (Map_set (memoryMap s) k validatedValue)) ;;;
   (if (0 <=? version s)%Z then update (with_version (version s + 1)) else ret tt) ;;;
   try_catch
     (void_call (option_map (fun hook => hook k validatedValue) (onUpdate (hooks s))))
     (console_error "onUpdate hook failed:") ;;;
   ret validatedValue)%js.

Definition delete (key : value) : Store unit :=
  (k <- string_key key ;;
   s <- this (fun s => s) ;;
   if Map_has (memoryMap s) k then
     update (with_memoryMap (Map_delete (memoryMap s) k)) ;;;
     (if (0 <=? version s)%Z then update (with_version (version s + 1)) else ret tt) ;;;
     try_catch
       (void_call (option_map (fun hook => hook k) (onDelete (hooks s))))
       (console_error "onDelete hook failed:")
   else ret tt)%js.

Fixpoint push (entries : list (string * value)) : M (A * world) unit :=
  match entries with
  | [] => ret tt
  | (key, v) :: r =>
      ((if negb (String.eqb key "__version__") then adapter_set the key v else ret tt) ;;;
       push r)%js
  end.

Definition sync : Store unit :=
  (s <- this (fun s => s) ;;
   match adapter s with
   | None => ret tt
   | Some _ =>
       (if (0 <=? version s)%Z
        then await (adapter_set the "__version__" (VNum (version s)))
        else ret tt) ;;;
       await (push (memoryMap s))
   end)%js.

Definition createBackup : Store unit :=
  (s <- this (fun s => s) ;;
   match adapter s, adapter_backup the with
   | Some _, Some backup =>
       let backupVersion := if (0 <=? version s)%Z then version s else 0 in
       await backup ;;;
       try_catch
         (timestamp <- Date_now ;;
          void_call (option_map (fun hook => hook timestamp backupVersion)
                       (onBackup (hooks s))))
         (console_error "onBackup hook failed:")
   | _, _ => ret tt
   end)%js.

Definition getVersion : Store Z := this version.

Definition dispose : Store unit :=
  (t <- this syncInterval ;;
   match t with
   | Some timer => in_world (clearInterval timer)
   | None => ret tt
   end)%js.

End Store.

Arguments KeyValueStore A : clear implicits.
Arguments Store A X : clear implicits.

(** ** [adapters/file-adapter.ts] *)

Record FileAdapter : Type := {
  filePath : string;
  cache : value
}.

Definition File (X : Type) : Type := M (FileAdapter * world) X.

Definition empty_object : value := VObj Plain [].

Definition FileAdapter_constructor (path : string) : FileAdapter :=
  {| filePath := path; cache := empty_object |}.

Definition set_cache (c : value) : File unit :=
  modify (fun aw => ({| filePath := filePath (fst aw); cache := c |}, snd aw)).

(** [await Bun.file(path).text()] *)
Definition Bun_file_text (path : string) : File text :=
  fun aw =>
    match files (snd aw) !! path with
    | Some t => (Normal t, aw)
    | None => (Abrupt (Builtin "ENOENT: no such file or directory"), aw)
    end.

(** [await Bun.write(path, data)] *)
Definition Bun_write (path : string) (data : text) : File unit :=
  modify (fun aw => (fst aw, write_file path data (snd aw))).

Definition is_null (v : value) : bool :=
  match v with VNull => true | _ => false end.

Definition FileAdapter_writeFile : File unit :=
  (path <- gets (fun aw => filePath (fst aw)) ;;
   c <- gets (fun aw => cache (fst aw)) ;;
   encoded <- lift (JSON_stringify c) ;;
   match encoded with
   | Some doc => Bun_write path (Encodes doc)
   | None => throw (Builtin "TypeError: nothing to write")
   end)%js.

Definition FileAdapter_init : File unit :=
  try_catch
    (path <- gets (fun aw => filePath (fst aw)) ;;
     fileData <- Bun_file_text path ;;
     root <- lift (JSON_parse fileData) ;;
     set_cache root ;;;
     if (negb (String.eqb (typeof root) "object") || is_null root)%bool
     then set_cache empty_object
     else ret tt)%js
    (fun _ => set_cache empty_object ;;; FileAdapter_writeFile)%js.

Definition FileAdapter_get (key : string) : File value :=
  (c <- gets (fun aw => cache (fst aw)) ;;
   lift (js_get c key))%js.

Definition FileAdapter_set (key : string) (v : value) : File unit :=
  (c <- gets (fun aw => cache (fst aw)) ;;
   c' <- lift (js_set c key v) ;;
   set_cache c' ;;;
   FileAdapter_writeFile)%js.

Definition FileAdapter_delete (key : string) : File unit :=
  (c <- gets (fun aw => cache (fst aw)) ;;
   c' <- lift (js_delete c key) ;;
   set_cache c' ;;;
   FileAdapter_writeFile)%js.

Definition FileAdapter_all : File (list (string * value)) :=
  (c <- gets (fun aw => cache (fst aw)) ;;
   ret (spread c))%js.

Definition string_of_Z (z : Z) : string := NilZero.string_of_int (Z.to_int z).

Definition FileAdapter_backup : File unit :=
  (FileAdapter_writeFile ;;;
   path <- gets (fun aw => filePath (fst aw)) ;;
   timestamp <- Date_now ;;
   let backupFile := path ++ "." ++ string_of_Z timestamp ++ ".backup" in
   bytes <- Bun_file_text path ;;
   Bun_write backupFile bytes)%js.

(** [FileAdapter implements KeyValueAdapterWithBackup], with [all] on top. *)
Definition FileAdapter_methods : KeyValueAdapterWithBackup FileAdapter :=
  {| adapter_init := FileAdapter_init;
     adapter_get := FileAdapter_get;
     adapter_set := FileAdapter_set;
     adapter_delete := FileAdapter_delete;
     adapter_all := Some FileAdapter_all;
     adapter_backup := Some FileAdapter_backup |}.

Definition quiet (fs : gmap string text) : world :=
  {| console := []; floating := []; intervals := []; clock := 0; ticks := [];
     files := fs |}.

(** ** Vocabulary of the properties *)

Definition serializable (v : value) : Prop :=
  exists encoded, JSON_stringify v = Normal encoded.

(** The store as [set] leaves it when it gets as far as writing [stored]. *)
Definition written {A} (k : string) (stored : value) (s : KeyValueStore A)
  : KeyValueStore A :=
  let s' := with_memoryMap (Map_set (memoryMap s) k stored) s in
  if (0 <=? version s)%Z then with_version (version s + 1) s' else s'.

(** The world once a hook call has been attempted under [try]/[catch]. *)
Definition after_hook (label : string) (outcome : option hooked) (w : world) : world :=
  match outcome with
  | Some (Pending p) => let_float p w
  | Some (Raises payload) => log_error label (Thrown payload) w
  | _ => w
  end.

(** Configurations used as concrete inputs. *)
Definition in_memory (versioned : bool) (h : KeyValueStoreHooks)
  : KeyValueStoreConfig FileAdapter :=
  {| config_adapter := None; config_hooks := Some h;
     syncIntervalMs := None; enableVersioning := Some versioned |}.

Definition over_file (path : string) (versioned : bool)
  : KeyValueStoreConfig FileAdapter :=
  {| config_adapter := Some (FileAdapter_constructor path); config_hooks := None;
     syncIntervalMs := None; enableVersioning := Some versioned |}.

(** The circular object of the test suite: [c = { prop: "value" }; c.self = c]. *)
Definition circular : value := VObj Plain [("prop", VStr "value"); ("self", VBack 0)].

Definition not_serializable : exn := Error "Value must be JSON serializable".

(** The store as [delete] leaves it when the key was there. *)
Definition removed {A} (k : string) (s : KeyValueStore A) : KeyValueStore A :=
  let s' := with_memoryMap (Map_delete (memoryMap s) k) s in
  if (0 <=? version s)%Z then with_version (version s + 1) s' else s'.

(** The store as [init] leaves it once the adapter has enumerated [data]. *)
Definition loaded {A} (data : list (string * value)) (s : KeyValueStore A)
  : KeyValueStore A :=
  let s' := with_memoryMap
              (fold_left (fun m kv => Map_set m (fst kv) (snd kv)) data (memoryMap s)) s in
  match prop_get data "__version__" with
  | Some (VNum n) => if (0 <=? version s)%Z then with_version n s' else s'
  | _ => s'
  end.

(** The public operations, and runs of them. *)
Inductive operation : Type :=
| OpInit
| OpGet (key : value) (validator : option ValueValidator)
| OpSet (key v : value) (validator : option ValueValidator)
| OpDelete (key : value)
| OpSync
| OpCreateBackup
| OpGetVersion
| OpDispose.

Definition perform {A} (the : KeyValueAdapterWithBackup A) (op : operation)
  : Store A unit :=
  match op with
  | OpInit => init the
  | OpGet key validator => bind (get key validator) (fun _ => ret tt)
  | OpSet key v validator => bind (set key v validator) (fun _ => ret tt)
  | OpDelete key => delete key
  | OpSync => sync the
  | OpCreateBackup => createBackup the
  | OpGetVersion => bind getVersion (fun _ => ret tt)
  | OpDispose => dispose
  end.

(** The state an operation leaves behind, whether it returned or threw. *)
Definition step {A} (the : KeyValueAdapterWithBackup A) (op : operation)
    (sw : KeyValueStore A * world) : KeyValueStore A * world :=
  snd (perform the op sw).

Definition run {A} (the : KeyValueAdapterWithBackup A) (ops : list operation)
    (sw : KeyValueStore A * world) : KeyValueStore A * world :=
  fold_left (fun sw op => step the op sw) ops sw.



(** What [sync] is to write, in order: the counter under the reserved key
    when versioning is on, then every entry of the map but the reserved key. *)
Definition sync_writes {A} (s : KeyValueStore A) : list (string * value) :=
  (if (0 <=? version s)%Z then [("__version__", VNum (version s))] else [])
    ++ List.filter (fun kv => negb (String.eqb (fst kv) "__version__")) (memoryMap s).

(** One [adapter.set] per pair, each awaited before the next; the first
    failure ends the sequence. *)
Fixpoint write_each {A} (the : KeyValueAdapterWithBackup A)
    (writes : list (string * value)) : M (A * world) unit :=
  match writes with
  | [] => ret tt
  | (k, v) :: r => bind (adapter_set the k v) (fun _ => write_each the r)
  end.

(** Hooks that give themselves away by the label they are logged under. *)
Definition loud_hooks : KeyValueStoreHooks :=
  {| onUpdate := Some (fun _ _ => Raises (VStr "update"));
     onDelete := Some (fun _ => Raises (VStr "delete"));
     onBackup := None |}.

(** An [async] update hook whose promise rejects. *)
Definition rejecting_hooks : KeyValueStoreHooks :=
  {| onUpdate := Some (fun _ _ => Pending (Rejected (VStr "Hook error")));
     onDelete := None;
     onBackup := None |}.



(** Deep equality of values, as a test. *)
Definition kind_eqb (a b : object_kind) : bool :=
  match a, b with
  | Plain, Plain => true
  | Array m, Array n => N.eqb m n
  | _, _ => false
  end.

Fixpoint value_eqb (x y : value) : bool :=
  match x, y with
  | VUndefined, VUndefined => true
  | VNull, VNull => true
  | VBool a, VBool b => Bool.eqb a b
  | VNum m, VNum n => Z.eqb m n
  | VStr s, VStr t => String.eqb s t
  | VBigInt m, VBigInt n => Z.eqb m n
  | VBack m, VBack n => Nat.eqb m n
  | VObj j ps, VObj k qs =>
      kind_eqb j k &&
      (fix props_eqb (ps qs : list (string * value)) : bool :=
         match ps, qs with
         | [], [] => true
         | (a, u) :: ps', (b, v) :: qs' =>
             String.eqb a b && value_eqb u v && props_eqb ps' qs'
         | _, _ => false
         end) ps qs
  | _, _ => false
  end.

Definition Map_eqb (m m' : list (string * value)) : bool :=
  value_eqb (VObj Plain m) (VObj Plain m').







(** The count of the test suite: two sets and two deletes of one key. *)
Definition counting : list operation :=
  [OpSet (VStr "count") (VNum 1) None; OpSet (VStr "count") (VNum 2) None;
   OpDelete (VStr "count"); OpDelete (VStr "count")].

(** ** [adapters/sqlite-adapter.ts]

    [bun:sqlite] is not part of the package: the adapter is written against
    what it uses of it, opening a database and running the three statements
    and two queries below.  A stored value is the [text] of its column. *)

Inductive statement : Type :=
| CreateTable (table : string)
| Upsert (table key : string) (jsonValue : option json)
| DeleteRow (table key : string).

Record bun_sqlite (Database : Type) : Type := {
  Database_new : string -> world -> completion Database * world;
  Database_run : statement -> M (Database * world) unit;
  Database_get : string -> string -> M (Database * world) (option text);
  Database_all : string -> M (Database * world) (list (string * text))
}.
Arguments Database_new {Database}.
Arguments Database_run {Database}.
Arguments Database_get {Database}.
Arguments Database_all {Database}.

Record SqliteAdapterConfig : Type := {
  path : string;
  config_tableName : option string
}.

Record SqliteAdapter (Database : Type) : Type := {
  db : option Database;
  tableName : string;
  config : SqliteAdapterConfig
}.
Arguments db {Database}.
Arguments tableName {Database}.
Arguments config {Database}.

Section Sqlite.

Context {Database : Type} (sqlite : bun_sqlite Database).

Definition Sqlite (X : Type) : Type := M (SqliteAdapter Database * world) X.

Definition SqliteAdapter_constructor (c : SqliteAdapterConfig) : SqliteAdapter Database :=
  {| db := None;
     tableName := match config_tableName c with Some t => t | None => "key_value_store" end;
     config := c |}.

Definition set_db (d : option Database) : Sqlite unit :=
  modify (fun aw => ({| db := d; tableName := tableName (fst aw); config := config (fst aw) |},
                     snd aw)).

(** A call on [this.db!]: the handle is there once [ensureInitialized] passed. *)
Definition on_db {X} (call : M (Database * world) X) : Sqlite X :=
  fun aw =>
    match db (fst aw) with
    | None => (Abrupt (Builtin "TypeError: null is not an object"), aw)
    | Some d =>
        match call (d, snd aw) with
        | (r, (d', w')) =>
            (r, ({| db := Some d'; tableName := tableName (fst aw);
                    config := config (fst aw) |}, w'))
        end
    end.

Definition not_initialized : exn :=
  Error "SQLite adapter not initialized. Call init() first.".

Definition ensureInitialized : Sqlite unit :=
  fun aw =>
    match db (fst aw) with
    | None => (Abrupt not_initialized, aw)
    | Some _ => (Normal tt, aw)
    end.

Definition SqliteAdapter_init : Sqlite unit :=
  try_catch
    (p <- gets (fun aw => path (config (fst aw))) ;;
     opened <- (fun aw => match Database_new sqlite p (snd aw) with
                          | (r, w') => (r, (fst aw, w'))
                          end) ;;
     set_db (Some opened) ;;;
     t <- gets (fun aw => tableName (fst aw)) ;;
     on_db (Database_run sqlite (CreateTable t)))%js
    (fun err => set_db None ;;; throw err)%js.

(** [JSON.parse(row.value)], the raw text when that throws. *)
Definition parse_or_raw (t : text) : value :=
  match JSON_parse t with
  | Normal v => v
  | Abrupt _ => match t with Malformed chars => VStr chars | Encodes _ => VUndefined end
  end.

Definition SqliteAdapter_get (key : string) : Sqlite value :=
  (ensureInitialized ;;;
   t <- gets (fun aw => tableName (fst aw)) ;;
   row <- on_db (Database_get sqlite t key) ;;
   match row with
   | None => ret VUndefined
   | Some column => ret (parse_or_raw column)
   end)%js.

Definition SqliteAdapter_set (key : string) (v : value) : Sqlite unit :=
  (ensureInitialized ;;;
   jsonValue <- lift (JSON_stringify v) ;;
   t <- gets (fun aw => tableName (fst aw)) ;;
   on_db (Database_run sqlite (Upsert t key jsonValue)))%js.

Definition SqliteAdapter_delete (key : string) : Sqlite unit :=
  (ensureInitialized ;;;
   t <- gets (fun aw => tableName (fst aw)) ;;
   on_db (Database_run sqlite (DeleteRow t key)))%js.

(** The loop of [all]: [data[row.key] = ...] for each row in turn, on the own
    properties of [data]. *)
Fixpoint collect (rows : list (string * text)) (data : list (string * value))
  : list (string * value) :=
  match rows with
  | [] => data
  | (key, column) :: r => collect r (prop_set data key (parse_or_raw column))
  end.

Definition SqliteAdapter_all : Sqlite (list (string * value)) :=
  (ensureInitialized ;;;
   t <- gets (fun aw => tableName (fst aw)) ;;
   rows <- on_db (Database_all sqlite t) ;;
   ret (collect rows []))%js.

Definition SqliteAdapter_backup : Sqlite unit :=
  (ensureInitialized ;;;
   timestamp <- Date_now ;;
   p <- gets (fun aw => path (config (fst aw))) ;;
   let backupFile := p ++ "." ++ string_of_Z timestamp ++ ".backup" in
   bytes <- (fun aw => match files (snd aw) !! p with
                       | Some t => (Normal t, aw)
                       | None => (Abrupt (Builtin "ENOENT: no such file or directory"), aw)
                       end) ;;
   modify (fun aw => (fst aw, write_file backupFile bytes (snd aw))))%js.

Definition SqliteAdapter_methods : KeyValueAdapterWithBackup (SqliteAdapter Database) :=
  {| adapter_init := SqliteAdapter_init;
     adapter_get := SqliteAdapter_get;
     adapter_set := SqliteAdapter_set;
     adapter_delete := SqliteAdapter_delete;
     adapter_all := Some SqliteAdapter_all;
     adapter_backup := Some SqliteAdapter_backup |}.

End Sqlite.

(** A driver that keeps the rows of its one table in the handle, and cannot
    open anything under [/invalid]. *)
Fixpoint rows_find (rows : list (string * text)) (key : string) : option text :=
  match rows with
  | [] => None
  | (k, t) :: r => if String.eqb key k then Some t else rows_find r key
  end.

Fixpoint rows_upsert (rows : list (string * text)) (key : string) (t : text)
  : list (string * text) :=
  match rows with
  | [] => [(key, t)]
  | (k, x) :: r => if String.eqb key k then (k, t) :: r else (k, x) :: rows_upsert r key t
  end.

Definition rows_driver : bun_sqlite (list (string * text)) :=
  {| Database_new := fun p w =>
       if String.prefix "/invalid" p
       then (Abrupt (Builtin "unable to open database file"), w)
       else (Normal [], w);
     Database_run := fun st =>
       match st with
       | CreateTable _ => ret tt
       | Upsert _ key (Some doc) =>
           modify (fun dw => (rows_upsert (fst dw) key (Encodes doc), snd dw))
       | Upsert _ key None =>
           modify (fun dw => (rows_upsert (fst dw) key (Encodes JNull), snd dw))
       | DeleteRow _ key =>
           modify (fun dw => (List.filter (fun kt => negb (String.eqb key (fst kt))) (fst dw),
                              snd dw))
       end;
     Database_get := fun _ key => gets (fun dw => rows_find (fst dw) key);
     Database_all := fun _ => gets fst |}.

Definition over_sqlite (p : string) (versioned : bool)
  : KeyValueStoreConfig (SqliteAdapter (list (string * text))) :=
  {| config_adapter :=
       Some (SqliteAdapter_constructor {| path := p; config_tableName := None |});
     config_hooks := None; syncIntervalMs := None;
     enableVersioning := Some versioned |}.

(** ** More vocabulary *)

(** The names a plain object answers to without owning them: the properties
    of [Object.prototype].  Reading one of them from an object that does not
    own it gives what the prototype holds, not [undefined]. *)
Definition Object_prototype : list string :=
  ["__proto__"; "constructor"; "hasOwnProperty"; "isPrototypeOf";
   "propertyIsEnumerable"; "toLocaleString"; "toString"; "valueOf";
   "__defineGetter__"; "__defineSetter__"; "__lookupGetter__"; "__lookupSetter__"].

Definition inherited (k : string) : bool :=
  existsb (String.eqb k) Object_prototype.

(** The one among them that is an accessor: assigning to it on an object
    that does not own it runs the setter of the prototype and creates no
    property. *)
Definition proto_key : string := "__proto__".

(** No key is held twice. *)
Definition unique_keys (m : list (string * value)) : Prop :=
  List.NoDup (List.map fst m).

(** The members of an object as [JSON.stringify] goes through them. *)
Fixpoint stringify_members (kind : object_kind) (ps : list (string * value))
  : completion (list (string * option json)) :=
  match ps with
  | [] => Normal []
  | (k, x) :: r =>
      match (if serialised kind k then JSON_stringify x else Normal None) with
      | Abrupt e => Abrupt e
      | Normal j =>
          match stringify_members kind r with
          | Abrupt e => Abrupt e
          | Normal js => Normal ((k, j) :: js)
          end
      end
  end.

(** The properties of an object as [JSON.parse] creates them. *)
Fixpoint build_props (ms : list (string * json)) (acc : list (string * value))
  : list (string * value) :=
  match ms with
  | [] => acc
  | (k, j) :: r => build_props r (prop_set acc k (value_of_json j))
  end.

(** Keys in the order an object enumerates them: each key differs from the
    ones before it and is not due before any of them. *)
Fixpoint enumeration_order (keys : list string) : Prop :=
  match keys with
  | [] => True
  | k :: r =>
      List.Forall (fun later => later <> k /\ enumerated_before later k = false) r
      /\ enumeration_order r
  end.

(** A value that comes back from its JSON text as it went in. *)
Definition survives_json (v : value) : Prop :=
  exists doc, JSON_stringify v = Normal (Some doc) /\ value_of_json doc = v.

(** The file adapter with a given plain-object cache. *)
Definition caching (p : string) (ps : list (string * value)) : FileAdapter :=
  {| filePath := p; cache := VObj Plain ps |}.

(** The properties of an object after a sequence of assignments. *)
Definition assign_all (writes ps : list (string * value)) : list (string * value) :=
  fold_left (fun acc kv => prop_set acc (fst kv) (snd kv)) writes ps.

(** A store over a file whose backup hook gives away the timestamp it is
    called with, by throwing it. *)
Definition telling_backups (p : string) : KeyValueStoreConfig FileAdapter :=
  {| config_adapter := Some (FileAdapter_constructor p);
     config_hooks := Some {| onUpdate := None; onDelete := None;
                             onBackup := Some (fun timestamp _ => Raises (VNum timestamp)) |};
     syncIntervalMs := None; enableVersioning := None |}.

(** * Properties *)

(** ** The runtime model on small inputs *)

Example stringify_cycle :
  JSON_stringify (VObj Plain [("prop", VStr "value"); ("self", VBack 0)])
  = Abrupt (Builtin "TypeError: cyclic structure").
Proof. reflexivity. Qed.

Example stringify_array :
  JSON_stringify (array_of [VNum 1; VUndefined; VStr "a"])
  = Normal (Some (JArr [JNum 1; JNull; JStr "a"])).
Proof. reflexivity. Qed.

Example parse_orders_indices :
  JSON_parse (Encodes (JObj [("b", JNum 1); ("2", JNull); ("10", JNull); ("1", JBool true)]))
  = Normal (VObj Plain [("1", VBool true); ("2", VNull); ("10", VNull); ("b", VNum 1)]).
Proof. reflexivity. Qed.

Example init_missing_file :
  FileAdapter_init (FileAdapter_constructor "store.json", quiet ∅)
  = (Normal tt, (FileAdapter_constructor "store.json",
                 quiet {[ "store.json" := Encodes (JObj []) ]})).
Proof. vm_compute. reflexivity. Qed.

(** ** The map *)

Lemma Map_find_set_same (m : list (string * value)) (k : string) (v : value) :
  Map_find (Map_set m k v) k = Some v.
Proof.
  induction m as [|[k' x] m IH]; simpl.
  - now rewrite String.eqb_refl.
  - destruct (String.eqb k k') eqn:E; simpl.
    + now rewrite String.eqb_refl.
    + now rewrite E.
Qed.

Lemma Map_find_set_other (m : list (string * value)) (k k' : string) (v : value) :
  k <> k' -> Map_find (Map_set m k v) k' = Map_find m k'.
Proof.
  intros Hne. induction m as [|[k0 x] m IH]; simpl.
  - destruct (String.eqb k' k) eqn:E; [|reflexivity].
    apply String.eqb_eq in E. congruence.
  - destruct (String.eqb k k0) eqn:E; simpl.
    + apply String.eqb_eq in E. subst k0.
      destruct (String.eqb k' k) eqn:E'; [|reflexivity].
      apply String.eqb_eq in E'. congruence.
    + destruct (String.eqb k' k0); [reflexivity | exact IH].
Qed.

Lemma Map_get_set_same (m : list (string * value)) (k : string) (v : value) :
  Map_get (Map_set m k v) k = v.
Proof. unfold Map_get. now rewrite Map_find_set_same. Qed.

Lemma Map_delete_shorter (m : list (string * value)) (k : string) :
  Map_has m k = true -> (List.length (Map_delete m k) < List.length m)%nat.
Proof.
  unfold Map_has. induction m as [|[k' x] m IH]; simpl; [discriminate|].
  destruct (String.eqb k k'); simpl; intros H; [lia | apply IH in H; lia].
Qed.

(** ** What [set] does, step by step *)

Lemma guarded_hook {A} (label : string) (outcome : option hooked)
    (s : KeyValueStore A) (w : world) :
  try_catch (void_call outcome) (console_error label) (s, w)
  = (Normal tt, (s, after_hook label outcome w)).
Proof. destruct outcome as [[| p | payload]|]; reflexivity. Qed.

Lemma set_unfold {A} (k : string) (v : value) (validator : option ValueValidator)
    (s : KeyValueStore A) (w : world) :
  set (VStr k) v validator (s, w) =
  match JSON_stringify v with
  | Abrupt _ => (Abrupt (Error "Value must be JSON serializable"), (s, w))
  | Normal _ =>
      match match validator with Some validate => validate v | None => Returns v end with
      | Throws payload => (Abrupt (Thrown payload), (s, w))
      | Returns stored =>
          (Normal stored,
           (written k stored s,
            after_hook "onUpdate hook failed:"
              (option_map (fun hook => hook k stored) (onUpdate (hooks s))) w))
      end
  end.
Proof.
  unfold set, bind, string_key, ret, throw. simpl.
  destruct (JSON_stringify v) as [enc|e]; simpl; [|reflexivity].
  destruct validator as [validate|]; simpl.
  - destruct (validate v) as [stored|payload]; simpl; [|reflexivity].
    unfold written. destruct (0 <=? version s)%Z; simpl;
      rewrite guarded_hook; reflexivity.
  - unfold written. destruct (0 <=? version s)%Z; simpl;
      rewrite guarded_hook; reflexivity.
Qed.

Lemma set_bad_key {A} (key v : value) (validator : option ValueValidator)
    (sw : KeyValueStore A * world) :
  typeof key <> "string" ->
  set key v validator sw = (Abrupt (Error "Key must be a string"), sw).
Proof. destruct key; simpl; intros H; try reflexivity. now contradiction H. Qed.

Lemma get_unfold {A} (k : string) (validator : option ValueValidator)
    (s : KeyValueStore A) (w : world) :
  get (VStr k) validator (s, w) =
  (match Map_get (memoryMap s) k with
   | VUndefined => Normal VUndefined
   | val => match validator with
            | None => Normal val
            | Some validate => match validate val with
                               | Returns v => Normal v
                               | Throws payload => Abrupt (Thrown payload)
                               end
            end
   end, (s, w)).
Proof.
  unfold get, bind, string_key, this, gets, ret. simpl.
  destruct (Map_get (memoryMap s) k); try reflexivity;
    destruct validator as [validate|]; try reflexivity;
    simpl; match goal with |- context [validate ?x] => destruct (validate x) end;
    reflexivity.
Qed.

Lemma memoryMap_written {A} (k : string) (stored : value) (s : KeyValueStore A) :
  memoryMap (written k stored s) = Map_set (memoryMap s) k stored.
Proof. unfold written. destruct (0 <=? version s)%Z; reflexivity. Qed.

(** ** [set] and [get] *)

(** C1. For every string key [k] and every value [v] that [JSON.stringify]
    accepts, [set(k, v)] without a validator returns [v], and a [get(k)]
    without a validator right after it returns [v] again and leaves the store
    and the world as they were. *)
Theorem set_then_get_returns_value {A : Type} (s : KeyValueStore A) (w : world)
    (k : string) (v : value) :
  serializable v ->
  fst (set (VStr k) v None (s, w)) = Normal v /\
  get (VStr k) None (snd (set (VStr k) v None (s, w)))
  = (Normal v, snd (set (VStr k) v None (s, w))).
Proof.
  intros [encoded Hv]. rewrite set_unfold, Hv. simpl. split; [reflexivity|].
  rewrite get_unfold, memoryMap_written, Map_get_set_same.
  destruct v; reflexivity.
Qed.

(** A nested object with an array in it, on a store without versioning. *)
Lemma set_then_get_returns_value_witness :
  let sw := constructor (in_memory false no_hooks) (quiet ∅) in
  let v := VObj Plain [("name", VStr "Brandon"); ("tags", array_of [VNum 1; VNull])] in
  serializable v /\
  fst (set (VStr "user") v None sw) = Normal v /\
  get (VStr "user") None (snd (set (VStr "user") v None sw))
  = (Normal v, snd (set (VStr "user") v None sw)).
Proof.
  refine (let H := _ in conj H (set_then_get_returns_value _ _ _ _ H)).
  eexists. vm_compute. reflexivity.
Defined.

(** C2. When the validator handed to [set(k, v)] throws on [v], [set]
    completes abruptly and neither the store (map, version, everything else)
    nor the world has changed; the error is the validator's own whenever [v]
    gets past the serialization probe. *)
Theorem set_rejected_by_validator {A : Type} (s : KeyValueStore A) (w : world)
    (k : string) (v : value) (validate : ValueValidator) (payload : value) :
  validate v = Throws payload ->
  exists e,
    set (VStr k) v (Some validate) (s, w) = (Abrupt e, (s, w)) /\
    (serializable v -> e = Thrown payload).
Proof.
  intros Hthrows. rewrite set_unfold, Hthrows.
  destruct (JSON_stringify v) as [encoded|e0] eqn:Hv.
  - exists (Thrown payload). split; [reflexivity | trivial].
  - exists not_serializable. split; [reflexivity|].
    intros [encoded Hs]. congruence.
Qed.

(** The validator of the test suite: numbers pass, the rest is rejected. *)
Lemma set_rejected_by_validator_witness :
  let numberValidator : ValueValidator :=
    fun val => match val with
               | VNum _ => Returns val
               | _ => Throws (VStr "Value must be a number")
               end in
  let sw := snd (set (VStr "count") (VNum 42) (Some numberValidator)
                   (constructor (in_memory true no_hooks) (quiet ∅))) in
  numberValidator (VStr "not a number") = Throws (VStr "Value must be a number") /\
  exists e,
    set (VStr "count") (VStr "not a number") (Some numberValidator) sw
    = (Abrupt e, sw) /\
    (serializable (VStr "not a number") -> e = Thrown (VStr "Value must be a number")).
Proof.
  split; [reflexivity|].
  exact (set_rejected_by_validator _ _ "count" (VStr "not a number") _ _ eq_refl).
Defined.

(** C10. With a string key, [set] fails with the not-serializable error exactly
    when [JSON.stringify] throws on the raw input.  The probe comes first: when
    it throws, the outcome is the same under every validator (also one that
    would throw itself) and nothing has changed.  What the validator returns
    is not probed: a validator that answers with a cyclic object makes [set]
    succeed and leaves that object in the map. *)
Theorem probe_reads_raw_input_only :
  (forall (A : Type) (s : KeyValueStore A) (w : world) (k : string) (v : value)
          (validator : option ValueValidator),
      fst (set (VStr k) v validator (s, w)) = Abrupt not_serializable
      <-> exists e, JSON_stringify v = Abrupt e) /\
  (forall (A : Type) (s : KeyValueStore A) (w : world) (k : string) (v : value)
          (validator : option ValueValidator) (e : exn),
      JSON_stringify v = Abrupt e ->
      set (VStr k) v validator (s, w) = (Abrupt not_serializable, (s, w))) /\
  (exists (validate : ValueValidator) (v stored : value),
      validate v = Returns stored /\
      (exists e, JSON_stringify stored = Abrupt e) /\
      forall (A : Type) (s : KeyValueStore A) (w : world) (k : string),
        fst (set (VStr k) v (Some validate) (s, w)) = Normal stored /\
        Map_find (memoryMap (fst (snd (set (VStr k) v (Some validate) (s, w))))) k
        = Some stored).
Proof.
  split; [|split].
  - intros A s w k v validator. rewrite set_unfold. split.
    + destruct (JSON_stringify v) as [encoded|e]; [|eauto].
      destruct validator as [validate|]; simpl;
        [destruct (validate v)|]; simpl; intros H; discriminate H.
    + intros [e He]. rewrite He. reflexivity.
  - intros A s w k v validator e He. rewrite set_unfold, He. reflexivity.
  - exists (fun _ => Returns circular), VNull, circular.
    split; [reflexivity|]. split; [eexists; reflexivity|].
    intros A s w k. rewrite set_unfold. simpl. split; [reflexivity|].
    rewrite memoryMap_written. apply Map_find_set_same.
Qed.

(** The circular object is turned away before a validator that would throw gets to see it. *)
Lemma probe_reads_raw_input_only_witness :
  JSON_stringify circular = Abrupt (Builtin "TypeError: cyclic structure") /\
  set (VStr "circular") circular (Some (fun _ => Throws VNull))
    (constructor (in_memory true no_hooks) (quiet ∅))
  = (Abrupt not_serializable, constructor (in_memory true no_hooks) (quiet ∅)).
Proof.
  split; [reflexivity|].
  exact (proj1 (proj2 probe_reads_raw_input_only) FileAdapter
           (fst (constructor (in_memory true no_hooks) (quiet ∅))) (quiet ∅)
           "circular" circular (Some (fun _ => Throws VNull)) _ eq_refl).
Defined.

(** ** The other methods, step by step *)

Lemma delete_unfold {A} (k : string) (s : KeyValueStore A) (w : world) :
  delete (VStr k) (s, w) =
  if Map_has (memoryMap s) k
  then (Normal tt,
        (removed k s,
         after_hook "onDelete hook failed:"
           (option_map (fun hook => hook k) (onDelete (hooks s))) w))
  else (Normal tt, (s, w)).
Proof.
  unfold delete, bind, string_key, this, gets, ret. simpl.
  destruct (Map_has (memoryMap s) k); [|reflexivity].
  unfold removed. destruct (0 <=? version s)%Z; simpl;
    rewrite guarded_hook; reflexivity.
Qed.

Lemma delete_bad_key {A} (key : value) (sw : KeyValueStore A * world) :
  typeof key <> "string" ->
  delete key sw = (Abrupt (Error "Key must be a string"), sw).
Proof. destruct key; simpl; intros H; try reflexivity. now contradiction H. Qed.

Lemma get_keeps_state {A} (key : value) (validator : option ValueValidator)
    (sw : KeyValueStore A * world) :
  snd (get key validator sw) = sw.
Proof.
  destruct sw as [s w]. destruct key; try reflexivity.
  rewrite get_unfold. reflexivity.
Qed.

Lemma load_unfold {A} (data : list (string * value)) (s : KeyValueStore A) (w : world) :
  load data (s, w)
  = (Normal tt,
     (with_memoryMap
        (fold_left (fun m kv => Map_set m (fst kv) (snd kv)) data (memoryMap s)) s, w)).
Proof.
  revert s. induction data as [|[k v] data IH]; intros s.
  - destruct s; reflexivity.
  - simpl. unfold bind, this, gets, update, modify. simpl.
    rewrite IH. reflexivity.
Qed.

Lemma init_unfold {A} (the : KeyValueAdapterWithBackup A) (s : KeyValueStore A)
    (w : world) :
  init the (s, w) =
  match adapter s with
  | None => (Normal tt, (s, w))
  | Some a =>
      match adapter_init the (a, w) with
      | (Abrupt e, (a1, w1)) => (Abrupt e, (with_adapter (Some a1) s, w1))
      | (Normal _, (a1, w1)) =>
          match adapter_all the with
          | None => (Normal tt, (with_adapter (Some a1) s, w1))
          | Some all =>
              match all (a1, w1) with
              | (Abrupt e, (a2, w2)) => (Abrupt e, (with_adapter (Some a2) s, w2))
              | (Normal data, (a2, w2)) =>
                  (Normal tt, (loaded data (with_adapter (Some a2) s), w2))
              end
          end
      end
  end.
Proof.
  unfold init, bind, this, gets. simpl.
  destruct (adapter s) as [a|] eqn:Ha; [|reflexivity].
  unfold await. simpl. rewrite Ha.
  destruct (adapter_init the (a, w)) as [[[]|e] [a1 w1]]; [|reflexivity].
  destruct (adapter_all the) as [all|]; [|reflexivity].
  simpl. destruct (all (a1, w1)) as [[data|e] [a2 w2]]; [|reflexivity].
  rewrite load_unfold. simpl. unfold loaded. simpl.
  destruct (prop_get data "__version__") as [[]|]; try reflexivity.
  destruct (0 <=? version s)%Z; reflexivity.
Qed.

Lemma await_unfold {A X} (method : M (A * world) X) (s : KeyValueStore A) (w : world) :
  await method (s, w) =
  match adapter s with
  | None => (Abrupt (Builtin "TypeError: undefined is not an object"), (s, w))
  | Some a => (fst (method (a, w)),
               (with_adapter (Some (fst (snd (method (a, w))))) s,
                snd (snd (method (a, w)))))
  end.
Proof.
  unfold await. simpl. destruct (adapter s) as [a|]; [|reflexivity].
  destruct (method (a, w)) as [r [a' w']]. reflexivity.
Qed.

Lemma createBackup_unfold {A} (the : KeyValueAdapterWithBackup A)
    (s : KeyValueStore A) (w : world) :
  createBackup the (s, w) =
  match adapter s, adapter_backup the with
  | Some a, Some backup =>
      match backup (a, w) with
      | (Abrupt e, (a', w')) => (Abrupt e, (with_adapter (Some a') s, w'))
      | (Normal _, (a', w')) =>
          (Normal tt,
           (with_adapter (Some a') s,
            after_hook "onBackup hook failed:"
              (option_map
                 (fun hook => hook (clock w') (if (0 <=? version s)%Z then version s else 0))
                 (onBackup (hooks s))) (elapse w')))
      end
  | _, _ => (Normal tt, (s, w))
  end.
Proof.
  unfold createBackup, bind, this, gets. simpl.
  destruct (adapter s) as [a|] eqn:Ha; [|reflexivity].
  destruct (adapter_backup the) as [backup|]; [|reflexivity].
  rewrite await_unfold, Ha.
  destruct (backup (a, w)) as [[[]|e] [a' w']]; simpl; [|reflexivity].
  unfold try_catch, bind, Date_now, gets. simpl.
  destruct (onBackup (hooks s)) as [hook|]; simpl; [|reflexivity].
  destruct (hook (clock w') (if (0 <=? version s)%Z then version s else 0))
    as [| p | payload]; reflexivity.
Qed.

(** ** [sync] *)

Lemma push_is_write_each {A} (the : KeyValueAdapterWithBackup A)
    (m : list (string * value)) (aw : A * world) :
  push the m aw
  = write_each the
      (List.filter (fun kv => negb (String.eqb (fst kv) "__version__")) m) aw.
Proof.
  revert aw. induction m as [|[k v] m IH]; intros aw; [reflexivity|].
  simpl. destruct (String.eqb k "__version__"); simpl.
  - unfold bind at 1. simpl. apply IH.
  - unfold bind. destruct (adapter_set the k v aw) as [[[]|e] aw']; [apply IH | reflexivity].
Qed.

(** C6. With an adapter, [sync] is exactly the sequence of awaited
    [adapter.set] calls listed by [sync_writes]: first the counter under
    ["__version__"], only when versioning is on, then each entry of the map
    except the reserved key, one key at a time, stopping at the first call
    that fails; the map and the counter stay as they are.  Without an adapter
    [sync] does nothing. *)
Theorem sync_pushes_version_then_entries {A : Type} (the : KeyValueAdapterWithBackup A)
    (s : KeyValueStore A) (w : world) :
  sync the (s, w) =
  match adapter s with
  | None => (Normal tt, (s, w))
  | Some a =>
      let pushed := write_each the (sync_writes s) (a, w) in
      (fst pushed, (with_adapter (Some (fst (snd pushed))) s, snd (snd pushed)))
  end.
Proof.
  unfold sync, bind, this, gets. simpl.
  destruct (adapter s) as [a|] eqn:Ha; [|reflexivity].
  unfold sync_writes. destruct (0 <=? version s)%Z; simpl.
  - rewrite await_unfold, Ha. unfold bind.
    destruct (adapter_set the "__version__" (VNum (version s)) (a, w))
      as [[[]|e] [a1 w1]]; simpl; [|reflexivity].
    rewrite await_unfold. simpl. rewrite push_is_write_each.
    destruct s; reflexivity.
  - rewrite await_unfold, Ha, push_is_write_each.
    reflexivity.
Qed.

Lemma await_keeps_store {A X} (method : M (A * world) X) (s : KeyValueStore A)
    (w : world) :
  version (fst (snd (await method (s, w)))) = version s /\
  memoryMap (fst (snd (await method (s, w)))) = memoryMap s /\
  hooks (fst (snd (await method (s, w)))) = hooks s.
Proof. rewrite await_unfold. destruct (adapter s); repeat split. Qed.

Lemma sync_keeps_store {A} (the : KeyValueAdapterWithBackup A) (s : KeyValueStore A)
    (w : world) :
  version (fst (snd (sync the (s, w)))) = version s /\
  memoryMap (fst (snd (sync the (s, w)))) = memoryMap s.
Proof.
  unfold sync, bind, this, gets. simpl.
  destruct (adapter s) as [a|]; [|split; reflexivity].
  destruct (0 <=? version s)%Z.
  - destruct (await (adapter_set the "__version__" (VNum (version s))) (s, w))
      as [[[]|e] [s1 w1]] eqn:E;
      pose proof (await_keeps_store (adapter_set the "__version__" (VNum (version s))) s w)
        as (Hv & Hm & _); rewrite E in Hv, Hm; simpl in Hv, Hm.
    + destruct (await_keeps_store (push the (memoryMap s)) s1 w1) as (Hv' & Hm' & _).
      split; congruence.
    + simpl. split; assumption.
  - simpl. destruct (await_keeps_store (push the (memoryMap s)) s w) as (Hv & Hm & _).
    split; assumption.
Qed.

Example sync_to_file :
  let start := constructor (over_file "store.json" true) (quiet ∅) in
  let ops := [OpInit; OpSet (VStr "key1") (VStr "value1") None;
              OpSet (VStr "__version__") (VNum 99) None; OpSync] in
  files (snd (run FileAdapter_methods ops start)) !! "store.json"
  = Some (Encodes (JObj [("__version__", JNum 2); ("key1", JStr "value1")])).
Proof. vm_compute. reflexivity. Qed.

(** ** Hooks *)

(** Whatever the update hook does, [set] completes the same way and leaves the
    same store; only the world can tell the hook was there. *)
Lemma hooks_do_not_alter_set {A} (k : string) (v : value)
    (validator : option ValueValidator) (s : KeyValueStore A) (w : world)
    (h : KeyValueStoreHooks) :
  let quiet_s := {| memoryMap := memoryMap s; adapter := adapter s; hooks := h;
                    version := version s; syncInterval := syncInterval s |} in
  fst (set (VStr k) v validator (s, w)) = fst (set (VStr k) v validator (quiet_s, w)) /\
  memoryMap (fst (snd (set (VStr k) v validator (s, w))))
  = memoryMap (fst (snd (set (VStr k) v validator (quiet_s, w)))) /\
  version (fst (snd (set (VStr k) v validator (s, w))))
  = version (fst (snd (set (VStr k) v validator (quiet_s, w)))).
Proof.
  intros quiet_s. rewrite !set_unfold.
  destruct (JSON_stringify v); [|repeat split].
  destruct (match validator with Some validate => validate v | None => Returns v end);
    [|repeat split].
  simpl. unfold written. simpl. destruct (0 <=? version s)%Z; repeat split.
Qed.

(** A hook that throws is caught and logged under the hook's label. *)
Lemma throwing_hook_is_logged {A} (k : string) (v : value) (s : KeyValueStore A)
    (w : world) (hook : string -> value -> hooked) (payload : value) :
  serializable v ->
  onUpdate (hooks s) = Some hook ->
  hook k v = Raises payload ->
  set (VStr k) v None (s, w)
  = (Normal v, (written k v s, log_error "onUpdate hook failed:" (Thrown payload) w)).
Proof.
  intros [encoded Hv] Hhook Hraises.
  rewrite set_unfold, Hv, Hhook. simpl. rewrite Hraises. reflexivity.
Qed.

(** C7. A hook that returns a promise which rejects is not caught: [set]
    returns normally and the store is updated as usual, but nothing is written
    to the console and the rejected promise is left unhandled. *)
Theorem rejected_hook_promise_escapes {A : Type} (k : string) (v : value)
    (s : KeyValueStore A) (w : world) (hook : string -> value -> hooked)
    (reason : value) :
  serializable v ->
  onUpdate (hooks s) = Some hook ->
  hook k v = Pending (Rejected reason) ->
  let outcome := set (VStr k) v None (s, w) in
  fst outcome = Normal v /\
  fst (snd outcome) = written k v s /\
  console (snd (snd outcome)) = console w /\
  floating (snd (snd outcome)) = (floating w ++ [Rejected reason])%list.
Proof.
  intros [encoded Hv] Hhook Hrejects outcome. subst outcome.
  rewrite set_unfold, Hv, Hhook. simpl. rewrite Hrejects. simpl.
  repeat split.
Qed.

(** An [async] update hook that throws, as in [onUpdate: async () => { throw ... }]. *)
Lemma rejected_hook_promise_escapes_witness :
  let start := constructor (in_memory false rejecting_hooks) (quiet ∅) in
  let outcome := set (VStr "key") (VStr "value") None start in
  fst outcome = Normal (VStr "value") /\
  fst (snd outcome) = written "key" (VStr "value") (fst start) /\
  console (snd (snd outcome)) = [] /\
  floating (snd (snd outcome)) = [Rejected (VStr "Hook error")].
Proof.
  refine (rejected_hook_promise_escapes "key" (VStr "value")
            (fst (constructor (in_memory false rejecting_hooks) (quiet ∅))) (quiet ∅)
            (fun _ _ => Pending (Rejected (VStr "Hook error"))) (VStr "Hook error")
            _ eq_refl eq_refl).
  eexists. reflexivity.
Defined.

(** ** [set(k, undefined)] *)

Lemma set_undefined_is_an_update {A} (k : string) (s : KeyValueStore A) (w : world) :
  set (VStr k) VUndefined None (s, w)
  = (Normal VUndefined,
     (written k VUndefined s,
      after_hook "onUpdate hook failed:"
        (option_map (fun hook => hook k VUndefined) (onUpdate (hooks s))) w)) /\
  Map_has (memoryMap (written k VUndefined s)) k = true.
Proof.
  split; [rewrite set_unfold; reflexivity|].
  rewrite memoryMap_written. unfold Map_has. now rewrite Map_find_set_same.
Qed.

(** C3. On a fresh versioned store, [set("key", undefined)] leaves an entry
    for ["key"] holding [undefined], bumps the counter and fires the update
    hook, where [delete("key")] changes nothing; a later [delete("key")] then
    finds the entry, removes it, bumps the counter again and fires the delete
    hook. *)
Theorem set_undefined_keeps_an_entry :
  let start := constructor (in_memory true loud_hooks) (quiet ∅) in
  let marked := snd (set (VStr "key") VUndefined None start) in
  let cleared := snd (delete (VStr "key") marked) in
  fst (set (VStr "key") VUndefined None start) = Normal VUndefined /\
  memoryMap (fst marked) = [("key", VUndefined)] /\
  Map_has (memoryMap (fst marked)) "key" = true /\
  version (fst marked) = 1 /\
  console (snd marked) = [("onUpdate hook failed:", Thrown (VStr "update"))] /\
  delete (VStr "key") start = (Normal tt, start) /\
  memoryMap (fst cleared) = [] /\
  version (fst cleared) = 2 /\
  console (snd cleared) = [("onUpdate hook failed:", Thrown (VStr "update"));
                           ("onDelete hook failed:", Thrown (VStr "delete"))].
Proof.
  cbv zeta. vm_compute. repeat split.
Qed.

(** ** The file adapter *)




(** ** [init] *)

Lemma fold_set_untouched (data : list (string * value)) (m : list (string * value))
    (k : string) :
  ~ In k (List.map fst data) ->
  Map_find (fold_left (fun m kv => Map_set m (fst kv) (snd kv)) data m) k
  = Map_find m k.
Proof.
  revert m. induction data as [|[k0 v0] data IH]; intros m Hk; [reflexivity|].
  simpl in *. rewrite IH by tauto.
  apply Map_find_set_other. intros ->. tauto.
Qed.

Lemma fold_set_finds (data : list (string * value)) (m : list (string * value))
    (k : string) (v : value) :
  List.NoDup (List.map fst data) ->
  prop_get data k = Some v ->
  Map_find (fold_left (fun m kv => Map_set m (fst kv) (snd kv)) data m) k = Some v.
Proof.
  revert m. induction data as [|[k0 v0] data IH]; intros m Hnd Hget; [discriminate|].
  simpl in *. inversion Hnd as [|? ? Hfresh Hnd']; subst.
  destruct (String.eqb k k0) eqn:E.
  - apply String.eqb_eq in E. subst k0. injection Hget as ->.
    rewrite fold_set_untouched by assumption. apply Map_find_set_same.
  - apply IH; assumption.
Qed.

(** C9. When the adapter initialises, enumerates its persisted state, and
    that state holds a number under ["__version__"], then after [init] the
    reserved key is an entry of the in-memory map like any other: a
    [get("__version__")] returns the persisted number (and, versioning being
    on, the counter has that value too). *)
Theorem init_loads_reserved_key {A : Type} (the : KeyValueAdapterWithBackup A)
    (s : KeyValueStore A) (w : world) (a a1 a2 : A) (w1 w2 : world)
    (all : M (A * world) (list (string * value)))
    (data : list (string * value)) (n : Z) :
  adapter s = Some a ->
  adapter_init the (a, w) = (Normal tt, (a1, w1)) ->
  adapter_all the = Some all ->
  all (a1, w1) = (Normal data, (a2, w2)) ->
  List.NoDup (List.map fst data) ->
  prop_get data "__version__" = Some (VNum n) ->
  fst (init the (s, w)) = Normal tt /\
  Map_find (memoryMap (fst (snd (init the (s, w))))) "__version__" = Some (VNum n) /\
  get (VStr "__version__") None (snd (init the (s, w)))
  = (Normal (VNum n), snd (init the (s, w))) /\
  (0 <= version s -> version (fst (snd (init the (s, w)))) = n).
Proof.
  intros Ha Hinit Hall Hdata Hnd Hget.
  rewrite init_unfold, Ha, Hinit, Hall, Hdata. simpl.
  assert (Hmap : Map_find (memoryMap (loaded data (with_adapter (Some a2) s)))
                   "__version__" = Some (VNum n)).
  { unfold loaded. rewrite Hget. simpl.
    destruct (0 <=? version s)%Z; simpl; apply fold_set_finds; assumption. }
  split; [reflexivity|]. split; [exact Hmap|]. split.
  - rewrite get_unfold. unfold Map_get. rewrite Hmap. reflexivity.
  - intros Hv. unfold loaded. rewrite Hget. simpl.
    apply Z.leb_le in Hv. rewrite Hv. reflexivity.
Qed.

(** The file adapter over a document that a versioned store has synced before. *)
Lemma init_loads_reserved_key_witness :
  let w := quiet {[ "store.json" :=
                      Encodes (JObj [("__version__", JNum 5); ("key1", JStr "value1")]) ]} in
  let start := constructor (over_file "store.json" true) w in
  fst (init FileAdapter_methods start) = Normal tt /\
  Map_find (memoryMap (fst (snd (init FileAdapter_methods start)))) "__version__"
  = Some (VNum 5) /\
  get (VStr "__version__") None (snd (init FileAdapter_methods start))
  = (Normal (VNum 5), snd (init FileAdapter_methods start)) /\
  (0 <= 0 -> version (fst (snd (init FileAdapter_methods start))) = 5).
Proof.
  cbv zeta.
  refine (init_loads_reserved_key FileAdapter_methods
            (fst (constructor (over_file "store.json" true) (quiet ∅)))
            (quiet {[ "store.json" :=
                        Encodes (JObj [("__version__", JNum 5); ("key1", JStr "value1")]) ]})
            (FileAdapter_constructor "store.json")
            {| filePath := "store.json";
               cache := VObj Plain [("__version__", VNum 5); ("key1", VStr "value1")] |}
            {| filePath := "store.json";
               cache := VObj Plain [("__version__", VNum 5); ("key1", VStr "value1")] |}
            _ _ FileAdapter_all
            [("__version__", VNum 5); ("key1", VStr "value1")] 5
            eq_refl _ eq_refl _ _ eq_refl).
  - vm_compute. reflexivity.
  - vm_compute. reflexivity.
  - repeat constructor; simpl; intuition discriminate.
Defined.

(** ** Deep equality *)

Lemma value_nested_ind (P : value -> Prop) :
  P VUndefined -> P VNull -> (forall b, P (VBool b)) -> (forall n, P (VNum n)) ->
  (forall s, P (VStr s)) -> (forall n, P (VBigInt n)) ->
  (forall kind ps, List.Forall (fun kv => P (snd kv)) ps -> P (VObj kind ps)) ->
  (forall up, P (VBack up)) ->
  forall v, P v.
Proof.
  intros Hu Hn Hb Hnum Hs Hbig Hobj Hback. fix IH 1.
  intros [ | | b | n | s | n | kind ps | up];
    [exact Hu | exact Hn | apply Hb | apply Hnum | apply Hs | apply Hbig | | apply Hback].
  apply Hobj. induction ps as [|[k x] ps IHps]; constructor; [apply IH | exact IHps].
Qed.

Lemma kind_eqb_eq (a b : object_kind) : kind_eqb a b = true <-> a = b.
Proof.
  destruct a as [|m], b as [|n]; simpl; split; try congruence.
  - intros H. apply N.eqb_eq in H. congruence.
  - intros [= ->]. apply N.eqb_refl.
Qed.

Lemma value_eqb_eq (x y : value) : value_eqb x y = true <-> x = y.
Proof.
  revert y. induction x as [ | | b | n | s | n | kind ps IH | up] using value_nested_ind;
    intros [ | | b' | n' | s' | n'' | kind' qs | up']; simpl;
    try (split; congruence).
  - rewrite Bool.eqb_true_iff. split; congruence.
  - rewrite Z.eqb_eq. split; congruence.
  - rewrite String.eqb_eq. split; congruence.
  - rewrite Z.eqb_eq. split; congruence.
  - rewrite andb_true_iff, kind_eqb_eq.
    assert (Hps : forall qs,
               (fix props_eqb (ps qs : list (string * value)) : bool :=
                  match ps, qs with
                  | [], [] => true
                  | (a, u) :: ps', (b, v) :: qs' =>
                      String.eqb a b && value_eqb u v && props_eqb ps' qs'
                  | _, _ => false
                  end) ps qs = true <-> ps = qs).
    { clear qs. induction IH as [|[a u] ps Hu _ IHps]; intros [|[b v] qs];
        try (split; congruence).
      simpl in Hu. rewrite !andb_true_iff, String.eqb_eq, (Hu v), IHps.
      split; [intros [[-> ->] ->]; reflexivity | intros [= -> -> ->]; auto]. }
    rewrite Hps. split; [intros [-> ->]; reflexivity | intros [= -> ->]; auto].
  - rewrite Nat.eqb_eq. split; congruence.
Qed.

Lemma Map_eqb_eq (m m' : list (string * value)) : Map_eqb m m' = true <-> m = m'.
Proof. unfold Map_eqb. rewrite value_eqb_eq. split; congruence. Qed.

(** ** The version counter *)














(** ** Counting with the counter *)





Example counting_reaches_three :
  fst (getVersion (run FileAdapter_methods counting
                     (constructor (in_memory true no_hooks) (quiet ∅))))
  = Normal 3.
Proof. vm_compute. reflexivity. Qed.


(** * Further properties of the store *)

(** ** Keys *)

Lemma get_bad_key {A} (key : value) (validator : option ValueValidator)
    (sw : KeyValueStore A * world) :
  typeof key <> "string" ->
  get key validator sw = (Abrupt (Error "Key must be a string"), sw).
Proof. destruct key; simpl; intros H; try reflexivity. now contradiction H. Qed.

(** X1. A key that is not a string is turned away by [get], [set] and
    [delete] alike, with the same error and before anything else happens:
    nothing is probed, validated, stored or logged. *)
Theorem non_string_key_is_rejected {A : Type} (key v : value)
    (validator : option ValueValidator) (sw : KeyValueStore A * world) :
  typeof key <> "string" ->
  get key validator sw = (Abrupt (Error "Key must be a string"), sw) /\
  set key v validator sw = (Abrupt (Error "Key must be a string"), sw) /\
  delete key sw = (Abrupt (Error "Key must be a string"), sw).
Proof.
  intros Hkey. split; [|split].
  - now apply get_bad_key.
  - now apply set_bad_key.
  - now apply delete_bad_key.
Qed.

(** [null] as a key, with a value the probe would refuse and a validator that
    would throw: the key is what is reported. *)
Lemma non_string_key_is_rejected_witness :
  let sw := constructor (in_memory true loud_hooks) (quiet ∅) in
  get VNull (Some (fun _ => Throws VNull)) sw
  = (Abrupt (Error "Key must be a string"), sw) /\
  set VNull circular (Some (fun _ => Throws VNull)) sw
  = (Abrupt (Error "Key must be a string"), sw) /\
  delete VNull sw = (Abrupt (Error "Key must be a string"), sw).
Proof.
  refine (non_string_key_is_rejected VNull circular (Some (fun _ => Throws VNull)) _ _).
  discriminate.
Defined.

Lemma Map_find_delete_other (m : list (string * value)) (k k' : string) :
  k <> k' -> Map_find (Map_delete m k) k' = Map_find m k'.
Proof.
  intros Hne. induction m as [|[k0 x] m IH]; simpl; [reflexivity|].
  destruct (String.eqb k k0) eqn:E; simpl.
  - apply String.eqb_eq in E. subst k0.
    destruct (String.eqb k' k) eqn:E'; [|reflexivity].
    apply String.eqb_eq in E'. congruence.
  - destruct (String.eqb k' k0); [reflexivity | exact IH].
Qed.

Lemma memoryMap_removed {A} (k : string) (s : KeyValueStore A) :
  memoryMap (removed k s) = Map_delete (memoryMap s) k.
Proof. unfold removed. destruct (0 <=? version s)%Z; reflexivity. Qed.

Lemma get_result {A} (k : string) (validator : option ValueValidator)
    (sw : KeyValueStore A * world) :
  fst (get (VStr k) validator sw)
  = match Map_get (memoryMap (fst sw)) k with
    | VUndefined => Normal VUndefined
    | val => match validator with
             | None => Normal val
             | Some validate => match validate val with
                                | Returns v => Normal v
                                | Throws payload => Abrupt (Thrown payload)
                                end
             end
    end.
Proof. destruct sw as [s w]. rewrite get_unfold. reflexivity. Qed.

(** X2. [set] and [delete] touch one key only: what [get] answers for any
    other key, under any validator, is the same before and after, whether the
    call went through or threw. *)
Theorem other_keys_are_untouched {A : Type} (k k' : string) (v : value)
    (validator validator' : option ValueValidator) (sw : KeyValueStore A * world) :
  k <> k' ->
  fst (get (VStr k') validator' (snd (set (VStr k) v validator sw)))
  = fst (get (VStr k') validator' sw) /\
  fst (get (VStr k') validator' (snd (delete (VStr k) sw)))
  = fst (get (VStr k') validator' sw).
Proof.
  intros Hne. destruct sw as [s w]. rewrite !get_result. split.
  - rewrite set_unfold.
    destruct (JSON_stringify v); [|reflexivity].
    destruct (match validator with Some validate => validate v | None => Returns v end);
      [|reflexivity].
    simpl. rewrite memoryMap_written. unfold Map_get.
    now rewrite Map_find_set_other.
  - rewrite delete_unfold. destruct (Map_has (memoryMap s) k); [|reflexivity].
    simpl. rewrite memoryMap_removed. unfold Map_get.
    now rewrite Map_find_delete_other.
Qed.

Lemma other_keys_are_untouched_witness :
  let sw := snd (set (VStr "kept") (VNum 7) None
                   (constructor (in_memory true no_hooks) (quiet ∅))) in
  fst (get (VStr "kept") None (snd (set (VStr "other") (VStr "x") None sw)))
  = fst (get (VStr "kept") None sw) /\
  fst (get (VStr "kept") None (snd (delete (VStr "other") sw)))
  = fst (get (VStr "kept") None sw).
Proof.
  refine (other_keys_are_untouched "other" "kept" (VStr "x") None None _ _).
  discriminate.
Defined.

(** ** Validators *)

(** X3. What a validator returns on [set] is what is stored: [set] returns
    it and a plain [get] returns it.  A validator on [get] judges the stored
    value without replacing it: whatever it answers, also when it rejects,
    the entry is as it was. *)
Theorem validator_output_is_stored {A : Type} (k : string) (v stored : value)
    (validate : ValueValidator) (onRead : option ValueValidator)
    (s : KeyValueStore A) (w : world) :
  serializable v ->
  validate v = Returns stored ->
  let after := snd (set (VStr k) v (Some validate) (s, w)) in
  fst (set (VStr k) v (Some validate) (s, w)) = Normal stored /\
  fst (get (VStr k) None after) = Normal stored /\
  snd (get (VStr k) onRead after) = after /\
  fst (get (VStr k) None (snd (get (VStr k) onRead after))) = Normal stored.
Proof.
  intros [encoded Hv] Hvalid after. subst after.
  rewrite set_unfold, Hv, Hvalid. simpl.
  assert (Hget : forall w',
    fst (get (VStr k) None (written k stored s, w')) = Normal stored).
  { intros w'. rewrite get_unfold, memoryMap_written, Map_get_set_same.
    destruct stored; reflexivity. }
  split; [reflexivity|]. split; [apply Hget|].
  rewrite get_keeps_state. split; [reflexivity | apply Hget].
Qed.

(** A validator that trims to upper case on the way in, and one that rejects
    everything on the way out. *)
Lemma validator_output_is_stored_witness :
  let shout : ValueValidator :=
    fun val => match val with
               | VStr "hello" => Returns (VStr "HELLO")
               | _ => Throws (VStr "unexpected")
               end in
  let start := constructor (in_memory true no_hooks) (quiet ∅) in
  let after := snd (set (VStr "shout") (VStr "hello") (Some shout) start) in
  fst (set (VStr "shout") (VStr "hello") (Some shout) start) = Normal (VStr "HELLO") /\
  fst (get (VStr "shout") None after) = Normal (VStr "HELLO") /\
  snd (get (VStr "shout") (Some (fun _ => Throws VNull)) after) = after /\
  fst (get (VStr "shout") None
         (snd (get (VStr "shout") (Some (fun _ => Throws VNull)) after)))
  = Normal (VStr "HELLO").
Proof.
  refine (validator_output_is_stored "shout" (VStr "hello") (VStr "HELLO") _
            (Some (fun _ => Throws VNull))
            (fst (constructor (in_memory true no_hooks) (quiet ∅))) (quiet ∅) _ eq_refl).
  eexists. reflexivity.
Defined.

(** ** One entry per key *)

Lemma Map_set_keys (m : list (string * value)) (k : string) (v : value) :
  List.map fst (Map_set m k v)
  = if Map_has m k then List.map fst m else (List.map fst m ++ [k])%list.
Proof.
  unfold Map_has. induction m as [|[k' x] m IH]; simpl; [reflexivity|].
  destruct (String.eqb k k') eqn:E; simpl.
  - apply String.eqb_eq in E. now subst.
  - rewrite IH. destruct (Map_find m k); reflexivity.
Qed.

Lemma Map_find_none_keys (m : list (string * value)) (k : string) :
  Map_find m k = None <-> ~ In k (List.map fst m).
Proof.
  induction m as [|[k' x] m IH]; simpl; [tauto|].
  destruct (String.eqb k k') eqn:E.
  - apply String.eqb_eq in E. subst. split; [discriminate | tauto].
  - apply String.eqb_neq in E. rewrite IH. split; [intros H [H'|H']; congruence | tauto].
Qed.

Lemma Map_set_unique (m : list (string * value)) (k : string) (v : value) :
  unique_keys m -> unique_keys (Map_set m k v).
Proof.
  unfold unique_keys. intros Hm. rewrite Map_set_keys. unfold Map_has.
  destruct (Map_find m k) eqn:Hk; [exact Hm|].
  apply Map_find_none_keys in Hk.
  apply List.NoDup_app; [exact Hm | repeat constructor; simpl; tauto |].
  intros x Hx [<-|[]]. tauto.
Qed.

Lemma Map_delete_keys_incl (m : list (string * value)) (k x : string) :
  In x (List.map fst (Map_delete m k)) -> In x (List.map fst m).
Proof.
  induction m as [|[k' y] m IH]; simpl; [tauto|].
  destruct (String.eqb k k'); simpl; tauto.
Qed.

Lemma Map_delete_unique (m : list (string * value)) (k : string) :
  unique_keys m -> unique_keys (Map_delete m k).
Proof.
  unfold unique_keys. induction m as [|[k' x] m IH]; simpl; intros Hm; [exact Hm|].
  inversion Hm as [|? ? Hfresh Hm']; subst.
  destruct (String.eqb k k'); simpl; [exact Hm'|].
  constructor; [|now apply IH].
  intros Hin. apply Hfresh. eapply Map_delete_keys_incl. exact Hin.
Qed.

Lemma Map_find_delete_same (m : list (string * value)) (k : string) :
  unique_keys m -> Map_find (Map_delete m k) k = None.
Proof.
  unfold unique_keys. induction m as [|[k' x] m IH]; simpl; intros Hm; [reflexivity|].
  inversion Hm as [|? ? Hfresh Hm']; subst.
  destruct (String.eqb k k') eqn:E; simpl.
  - apply String.eqb_eq in E. subst. now apply Map_find_none_keys.
  - rewrite E. now apply IH.
Qed.

Lemma fold_set_unique (data : list (string * value)) (m : list (string * value)) :
  unique_keys m ->
  unique_keys (fold_left (fun m kv => Map_set m (fst kv) (snd kv)) data m).
Proof.
  revert m. induction data as [|[k v] data IH]; intros m Hm; [exact Hm|].
  simpl. apply IH. now apply Map_set_unique.
Qed.

Lemma step_keeps_unique {A} (the : KeyValueAdapterWithBackup A) (op : operation)
    (sw : KeyValueStore A * world) :
  unique_keys (memoryMap (fst sw)) -> unique_keys (memoryMap (fst (step the op sw))).
Proof.
  destruct sw as [s w]. simpl. intros Hm.
  destruct op as [ | key validator | key v validator | key | | | | ];
    unfold step, perform.
  - rewrite init_unfold.
    destruct (adapter s) as [a|]; [|exact Hm].
    destruct (adapter_init the (a, w)) as [[[]|e] [a1 w1]]; [|exact Hm].
    destruct (adapter_all the) as [all|]; [|exact Hm].
    destruct (all (a1, w1)) as [[data|e] [a2 w2]]; [|exact Hm].
    simpl. unfold loaded. simpl.
    destruct (prop_get data "__version__") as [[]|];
      try destruct (0 <=? version s)%Z; simpl; now apply fold_set_unique.
  - unfold bind. pose proof (get_keeps_state key validator (s, w)) as H.
    destruct (get key validator (s, w)) as [[x|e] sw']; simpl in *; now subst.
  - destruct key as [ | | | | k | | | ]; try exact Hm.
    unfold bind. rewrite set_unfold.
    destruct (JSON_stringify v); [|exact Hm].
    destruct (match validator with Some validate => validate v | None => Returns v end);
      [|exact Hm].
    simpl. rewrite memoryMap_written. now apply Map_set_unique.
  - destruct key as [ | | | | k | | | ]; try exact Hm.
    rewrite delete_unfold. destruct (Map_has (memoryMap s) k); [|exact Hm].
    simpl. rewrite memoryMap_removed. now apply Map_delete_unique.
  - destruct (sync_keeps_store the s w) as [_ ->]. exact Hm.
  - rewrite createBackup_unfold.
    destruct (adapter s) as [a|]; [|exact Hm].
    destruct (adapter_backup the) as [backup|]; [|exact Hm].
    destruct (backup (a, w)) as [[[]|e] [a' w']]; exact Hm.
  - exact Hm.
  - unfold dispose, bind, this, gets. simpl. destruct (syncInterval s); exact Hm.
Qed.

Lemma reachable_unique {A} (the : KeyValueAdapterWithBackup A)
    (config : KeyValueStoreConfig A) (w : world) (ops : list operation) :
  unique_keys (memoryMap (fst (run the ops (constructor config w)))).
Proof.
  assert (H0 : unique_keys (memoryMap (fst (constructor config w)))).
  { unfold constructor. simpl.
    destruct (syncIntervalMs config) as [ms|]; [|constructor].
    destruct (config_adapter config); [|constructor].
    destruct (Z.eqb ms 0); constructor. }
  revert H0. generalize (constructor config w).
  induction ops as [|op ops IH]; intros sw Hsw; [exact Hsw|].
  apply IH. now apply step_keeps_unique.
Qed.

(** X4. In every state a store can reach, [delete(k)] leaves no trace of
    [k]: a [get(k)] right after it answers [undefined] under any validator,
    which is not even consulted.  Deleting again changes nothing at all: no
    version bump, no hook, the same state. *)
Theorem delete_then_get_is_undefined {A : Type} (the : KeyValueAdapterWithBackup A)
    (config : KeyValueStoreConfig A) (w : world) (ops : list operation)
    (k : string) (validator : option ValueValidator) :
  let deleted := snd (delete (VStr k) (run the ops (constructor config w))) in
  get (VStr k) validator deleted = (Normal VUndefined, deleted) /\
  delete (VStr k) deleted = (Normal tt, deleted).
Proof.
  pose proof (reachable_unique the config w ops) as Hm.
  destruct (run the ops (constructor config w)) as [s w0]. simpl in Hm.
  cbv zeta. rewrite delete_unfold.
  destruct (Map_has (memoryMap s) k) eqn:Hhas; simpl.
  - assert (Hgone : Map_find (memoryMap (removed k s)) k = None).
    { rewrite memoryMap_removed. now apply Map_find_delete_same. }
    split.
    + rewrite get_unfold. unfold Map_get. rewrite Hgone. reflexivity.
    + rewrite delete_unfold. unfold Map_has. rewrite Hgone. reflexivity.
  - split.
    + rewrite get_unfold. unfold Map_get, Map_has in *.
      destruct (Map_find (memoryMap s) k); [discriminate | reflexivity].
    + rewrite delete_unfold, Hhas. reflexivity.
Qed.

Example delete_twice_fires_once :
  let start := constructor (in_memory true loud_hooks) (quiet ∅) in
  let ops := [OpSet (VStr "key") (VNum 1) None; OpDelete (VStr "key");
              OpDelete (VStr "key")] in
  console (snd (run FileAdapter_methods ops start))
  = [("onUpdate hook failed:", Thrown (VStr "update"));
     ("onDelete hook failed:", Thrown (VStr "delete"))] /\
  version (fst (run FileAdapter_methods ops start)) = 2.
Proof. vm_compute. split; reflexivity. Qed.

(** * The SQLite adapter *)

Section SqliteProperties.

Context {Database : Type} (sqlite : bun_sqlite Database).

Lemma ensureInitialized_open (a : SqliteAdapter Database) (w : world) (d : Database) :
  db a = Some d -> ensureInitialized (a, w) = (Normal tt, (a, w)).
Proof. unfold ensureInitialized. simpl. now intros ->. Qed.

(** X5. Until [init] has succeeded, every other method of the SQLite adapter
    fails at once with the not-initialized error and touches neither the
    adapter nor the world: the driver is not called. *)
Theorem sqlite_methods_need_init (a : SqliteAdapter Database) (w : world)
    (key : string) (v : value) :
  db a = None ->
  SqliteAdapter_get sqlite key (a, w) = (Abrupt not_initialized, (a, w)) /\
  SqliteAdapter_set sqlite key v (a, w) = (Abrupt not_initialized, (a, w)) /\
  SqliteAdapter_delete sqlite key (a, w) = (Abrupt not_initialized, (a, w)) /\
  SqliteAdapter_all sqlite (a, w) = (Abrupt not_initialized, (a, w)) /\
  SqliteAdapter_backup (a, w) = (Abrupt not_initialized, (a, w)).
Proof.
  intros Hdb.
  unfold SqliteAdapter_get, SqliteAdapter_set, SqliteAdapter_delete,
    SqliteAdapter_all, SqliteAdapter_backup, bind, ensureInitialized.
  simpl. rewrite Hdb. repeat split.
Qed.

(** X6. When [init] fails, whether on opening the database or on creating
    the table, the error is the driver's own and the adapter is left without
    a handle, also when it had one from an earlier [init]; when [init]
    succeeds the adapter has a handle. *)
Theorem sqlite_init_sets_or_clears_handle (a : SqliteAdapter Database) (w : world) :
  match fst (SqliteAdapter_init sqlite (a, w)) with
  | Abrupt e =>
      db (fst (snd (SqliteAdapter_init sqlite (a, w)))) = None /\
      (fst (Database_new sqlite (path (config a)) w) = Abrupt e \/
       exists d w', Database_new sqlite (path (config a)) w = (Normal d, w') /\
                    fst (Database_run sqlite (CreateTable (tableName a)) (d, w')) = Abrupt e)
  | Normal _ => exists d, db (fst (snd (SqliteAdapter_init sqlite (a, w)))) = Some d
  end.
Proof.
  unfold SqliteAdapter_init, try_catch, bind, gets, set_db, modify, on_db, throw. simpl.
  destruct (Database_new sqlite (path (config a)) w) as [[d|e] w'] eqn:Hnew; simpl.
  - destruct (Database_run sqlite (CreateTable (tableName a)) (d, w'))
      as [[[]|e] [d' w'']] eqn:Hrun; simpl.
    + eauto.
    + split; [reflexivity|]. right. exists d, w'. rewrite Hrun. auto.
  - split; [reflexivity|]. left. reflexivity.
Qed.

(** X7. Reading from an initialised SQLite adapter does not fail on what is
    stored: no row is [undefined], a column that holds JSON is the value it
    spells, and a column that is not JSON comes back as the raw string. *)
Theorem sqlite_get_falls_back_to_raw_text (a : SqliteAdapter Database) (w : world)
    (d d' : Database) (w' : world) (key : string) (row : option text) :
  db a = Some d ->
  Database_get sqlite (tableName a) key (d, w) = (Normal row, (d', w')) ->
  fst (SqliteAdapter_get sqlite key (a, w))
  = Normal match row with
           | None => VUndefined
           | Some (Encodes doc) => value_of_json doc
           | Some (Malformed chars) => VStr chars
           end.
Proof.
  intros Hdb Hrow.
  unfold SqliteAdapter_get, bind, ensureInitialized, gets, on_db. simpl.
  rewrite Hdb. simpl. rewrite Hdb, Hrow. simpl.
  destruct row as [[chars|doc]|]; reflexivity.
Qed.

(** X8. A value that [JSON.stringify] throws on never reaches the database:
    [set] on an initialised SQLite adapter fails with that error and leaves
    the adapter and the world as they were. *)
Theorem sqlite_set_refuses_before_writing (a : SqliteAdapter Database) (w : world)
    (d : Database) (key : string) (v : value) (e : exn) :
  db a = Some d ->
  JSON_stringify v = Abrupt e ->
  SqliteAdapter_set sqlite key v (a, w) = (Abrupt e, (a, w)).
Proof.
  intros Hdb Hv.
  unfold SqliteAdapter_set, bind, ensureInitialized, lift. simpl.
  rewrite Hdb, Hv. reflexivity.
Qed.

End SqliteProperties.

Lemma sqlite_methods_need_init_witness :
  let a : SqliteAdapter (list (string * text)) :=
    SqliteAdapter_constructor {| path := "test.db"; config_tableName := None |} in
  SqliteAdapter_get rows_driver "key" (a, quiet ∅) = (Abrupt not_initialized, (a, quiet ∅)) /\
  SqliteAdapter_set rows_driver "key" VNull (a, quiet ∅)
  = (Abrupt not_initialized, (a, quiet ∅)) /\
  SqliteAdapter_delete rows_driver "key" (a, quiet ∅)
  = (Abrupt not_initialized, (a, quiet ∅)) /\
  SqliteAdapter_all rows_driver (a, quiet ∅) = (Abrupt not_initialized, (a, quiet ∅)) /\
  SqliteAdapter_backup (a, quiet ∅) = (Abrupt not_initialized, (a, quiet ∅)).
Proof.
  exact (sqlite_methods_need_init rows_driver
           (SqliteAdapter_constructor {| path := "test.db"; config_tableName := None |})
           (quiet ∅) "key" VNull eq_refl).
Defined.

(** A row written by other software, and one written by the adapter. *)
Lemma sqlite_get_falls_back_to_raw_text_witness :
  let a : SqliteAdapter (list (string * text)) :=
    {| db := Some [("legacy", Malformed "plain text"); ("n", Encodes (JNum 3))];
       tableName := "key_value_store";
       config := {| path := "test.db"; config_tableName := None |} |} in
  fst (SqliteAdapter_get rows_driver "legacy" (a, quiet ∅)) = Normal (VStr "plain text").
Proof.
  exact (sqlite_get_falls_back_to_raw_text rows_driver
           {| db := Some [("legacy", Malformed "plain text"); ("n", Encodes (JNum 3))];
              tableName := "key_value_store";
              config := {| path := "test.db"; config_tableName := None |} |}
           (quiet ∅) _ _ (quiet ∅) "legacy" (Some (Malformed "plain text"))
           eq_refl eq_refl).
Defined.

Lemma sqlite_set_refuses_before_writing_witness :
  let a : SqliteAdapter (list (string * text)) :=
    {| db := Some [("n", Encodes (JNum 3))];
       tableName := "key_value_store";
       config := {| path := "test.db"; config_tableName := None |} |} in
  SqliteAdapter_set rows_driver "big" (VBigInt 1) (a, quiet ∅)
  = (Abrupt (Builtin "TypeError: cannot serialize BigInt"), (a, quiet ∅)).
Proof.
  exact (sqlite_set_refuses_before_writing rows_driver
           {| db := Some [("n", Encodes (JNum 3))];
              tableName := "key_value_store";
              config := {| path := "test.db"; config_tableName := None |} |}
           (quiet ∅) _ "big" (VBigInt 1) _ eq_refl eq_refl).
Defined.

Example sqlite_unwritable_path :
  let a : SqliteAdapter (list (string * text)) :=
    SqliteAdapter_constructor {| path := "/invalid/path/db.sqlite"; config_tableName := None |} in
  SqliteAdapter_init rows_driver (a, quiet ∅)
  = (Abrupt (Builtin "unable to open database file"), (a, quiet ∅)).
Proof. reflexivity. Qed.

(** * [init] and [createBackup] on any adapter *)

Lemma prop_get_none_keys (data : list (string * value)) (k : string) :
  prop_get data k = None <-> ~ In k (List.map fst data).
Proof.
  induction data as [|[k' x] data IH]; simpl; [tauto|].
  destruct (String.eqb k k') eqn:E.
  - apply String.eqb_eq in E. subst. split; [discriminate | tauto].
  - apply String.eqb_neq in E. rewrite IH. split; [intros H [H'|H']; congruence | tauto].
Qed.



(** X10. [init] merges what the adapter enumerates into the map; it does not
    start from an empty map.  After a successful load, a key the adapter
    enumerated holds the loaded value, whatever was in memory, and every
    other key holds what it held. *)
Theorem init_merges_loaded_entries {A : Type} (the : KeyValueAdapterWithBackup A)
    (s : KeyValueStore A) (w : world) (a a1 a2 : A) (w1 w2 : world)
    (all : M (A * world) (list (string * value)))
    (data : list (string * value)) (k : string) :
  adapter s = Some a ->
  adapter_init the (a, w) = (Normal tt, (a1, w1)) ->
  adapter_all the = Some all ->
  all (a1, w1) = (Normal data, (a2, w2)) ->
  List.NoDup (List.map fst data) ->
  Map_find (memoryMap (fst (snd (init the (s, w))))) k
  = match prop_get data k with
    | Some loaded_value => Some loaded_value
    | None => Map_find (memoryMap s) k
    end.
Proof.
  intros Ha Hinit Hall Hdata Hnd.
  rewrite init_unfold, Ha, Hinit, Hall, Hdata. simpl.
  assert (Hmap : memoryMap (loaded data (with_adapter (Some a2) s))
                 = fold_left (fun m kv => Map_set m (fst kv) (snd kv)) data (memoryMap s)).
  { unfold loaded. destruct (prop_get data "__version__") as [[]|];
      try destruct (0 <=? version (with_adapter (Some a2) s))%Z; reflexivity. }
  rewrite Hmap. destruct (prop_get data k) as [v|] eqn:Hk.
  - now apply fold_set_finds.
  - apply fold_set_untouched. now apply prop_get_none_keys.
Qed.

(** A store that already holds two keys, over a file that holds one of them
    with another value. *)
Lemma init_merges_loaded_entries_witness :
  let w := quiet {[ "store.json" := Encodes (JObj [("shared", JStr "from file")]) ]} in
  let start := run FileAdapter_methods
                 [OpSet (VStr "shared") (VStr "from memory") None;
                  OpSet (VStr "local") (VNum 1) None]
                 (constructor (over_file "store.json" false) w) in
  Map_find (memoryMap (fst (snd (init FileAdapter_methods start)))) "shared"
  = Some (VStr "from file") /\
  Map_find (memoryMap (fst (snd (init FileAdapter_methods start)))) "local"
  = Some (VNum 1).
Proof.
  cbv zeta. split.
  - refine (init_merges_loaded_entries FileAdapter_methods
              (fst (run FileAdapter_methods
                      [OpSet (VStr "shared") (VStr "from memory") None;
                       OpSet (VStr "local") (VNum 1) None]
                      (constructor (over_file "store.json" false)
                         (quiet {[ "store.json" :=
                                     Encodes (JObj [("shared", JStr "from file")]) ]}))))
              (quiet {[ "store.json" := Encodes (JObj [("shared", JStr "from file")]) ]})
              (FileAdapter_constructor "store.json")
              {| filePath := "store.json";
                 cache := VObj Plain [("shared", VStr "from file")] |}
              {| filePath := "store.json";
                 cache := VObj Plain [("shared", VStr "from file")] |}
              _ _ FileAdapter_all [("shared", VStr "from file")] "shared"
              eq_refl _ eq_refl _ _); [vm_compute; reflexivity .. |].
    repeat constructor; simpl; tauto.
  - vm_compute. reflexivity.
Defined.

(** X11. [createBackup] hands on the failure of the adapter's [backup] and
    then does not call the backup hook: the world is as the adapter left it,
    nothing logged and no promise returned by a hook added to it.  The map,
    the counter and the hooks are untouched whatever happens. *)
Theorem failed_backup_skips_the_hook {A : Type} (the : KeyValueAdapterWithBackup A)
    (s : KeyValueStore A) (w : world) (a a' : A) (w' : world)
    (backup : M (A * world) unit) (e : exn) :
  adapter s = Some a ->
  adapter_backup the = Some backup ->
  backup (a, w) = (Abrupt e, (a', w')) ->
  createBackup the (s, w) = (Abrupt e, (with_adapter (Some a') s, w')).
Proof.
  intros Ha Hcap Hfail. rewrite createBackup_unfold, Ha, Hcap, Hfail. reflexivity.
Qed.

(** A SQLite adapter that was never initialised cannot back up. *)
Lemma failed_backup_skips_the_hook_witness :
  let start := constructor (over_sqlite "test.db" true) (quiet ∅) in
  createBackup (SqliteAdapter_methods rows_driver) start
  = (Abrupt not_initialized, start).
Proof.
  exact (failed_backup_skips_the_hook (SqliteAdapter_methods rows_driver)
           (fst (constructor (over_sqlite "test.db" true) (quiet ∅))) (quiet ∅)
           _ _ (quiet ∅) _ not_initialized eq_refl eq_refl eq_refl).
Defined.

(** * The file adapter, continued *)

(** ** Objects and their JSON text *)

Lemma JSON_stringify_object (kind : object_kind) (ps : list (string * value)) :
  JSON_stringify (VObj kind ps)
  = match stringify_members kind ps with
    | Abrupt e => Abrupt e
    | Normal ms =>
        Normal (Some match kind with
                     | Plain => JObj (present ms)
                     | Array len => JArr (array_elements len ms)
                     end)
    end.
Proof.
  simpl.
  assert (H : forall ps,
    (fix members (ps : list (string * value))
       : completion (list (string * option json)) :=
       match ps with
       | [] => Normal []
       | (k, x) :: r =>
           match (if serialised kind k then JSON_stringify x else Normal None) with
           | Abrupt e => Abrupt e
           | Normal j =>
               match members r with
               | Abrupt e => Abrupt e
               | Normal js => Normal ((k, j) :: js)
               end
           end
       end) ps = stringify_members kind ps).
  { clear ps. induction ps as [|[k x] ps IH]; simpl; [reflexivity|]. now rewrite IH. }
  now rewrite H.
Qed.

Lemma value_of_json_object (ms : list (string * json)) :
  value_of_json (JObj ms) = VObj Plain (build_props ms []).
Proof.
  reflexivity.
Qed.

Lemma members_of_serializable (kind : object_kind) (ps : list (string * value)) :
  List.Forall (fun kv => serializable (snd kv)) ps ->
  exists ms, stringify_members kind ps = Normal ms.
Proof.
  induction 1 as [|[k x] ps [enc Hx] _ [ms IH]]; simpl; [eauto|].
  simpl in Hx. rewrite Hx, IH. destruct (serialised kind k); eauto.
Qed.

Lemma object_of_serializable (kind : object_kind) (ps : list (string * value)) :
  List.Forall (fun kv => serializable (snd kv)) ps ->
  exists doc, JSON_stringify (VObj kind ps) = Normal (Some doc).
Proof.
  intros H. destruct (members_of_serializable kind ps H) as [ms Hms].
  rewrite JSON_stringify_object, Hms. eauto.
Qed.


(** ** Properties of an object *)

Lemma prop_get_set_same (ps : list (string * value)) (k : string) (v : value) :
  prop_get (prop_set ps k v) k = Some v.
Proof.
  induction ps as [|[k' x] ps IH]; simpl.
  - now rewrite String.eqb_refl.
  - destruct (String.eqb k k') eqn:E; simpl.
    + now rewrite String.eqb_refl.
    + destruct (enumerated_before k k'); simpl.
      * now rewrite String.eqb_refl.
      * now rewrite E.
Qed.

Lemma prop_get_set_other (ps : list (string * value)) (k k' : string) (v : value) :
  k <> k' -> prop_get (prop_set ps k v) k' = prop_get ps k'.
Proof.
  intros Hne. assert (Hkk : String.eqb k' k = false) by (apply String.eqb_neq; congruence).
  induction ps as [|[k0 x] ps IH]; simpl.
  - now rewrite Hkk.
  - destruct (String.eqb k k0) eqn:E; simpl.
    + apply String.eqb_eq in E. subst k0. now rewrite Hkk.
    + destruct (enumerated_before k k0); simpl.
      * now rewrite Hkk.
      * destruct (String.eqb k' k0); [reflexivity | exact IH].
Qed.



Lemma prop_set_keys (ps : list (string * value)) (k x : string) (v : value) :
  In x (List.map fst (prop_set ps k v)) -> x = k \/ In x (List.map fst ps).
Proof.
  induction ps as [|[k' y] ps IH]; simpl; [intuition congruence|].
  destruct (String.eqb k k') eqn:E; simpl.
  - apply String.eqb_eq in E. subst. intuition congruence.
  - destruct (enumerated_before k k'); simpl; [intuition congruence|].
    intros [H|H]; [auto|]. apply IH in H. tauto.
Qed.

Lemma prop_set_serializable (ps : list (string * value)) (k : string) (v : value) :
  List.Forall (fun kv => serializable (snd kv)) ps -> serializable v ->
  List.Forall (fun kv => serializable (snd kv)) (prop_set ps k v).
Proof.
  intros Hps Hv. induction Hps as [|[k' x] ps Hx Hps IH]; simpl.
  - repeat constructor. exact Hv.
  - destruct (String.eqb k k'); [constructor; assumption|].
    destruct (enumerated_before k k'); repeat constructor; assumption.
Qed.

(** ** [set], [get] and [delete] on the cache *)

Lemma FileAdapter_set_unfold (p : string) (kind : object_kind)
    (ps : list (string * value)) (k : string) (v : value) (w : world) :
  FileAdapter_set k v ({| filePath := p; cache := VObj kind ps |}, w)
  = match JSON_stringify (VObj (grow kind k) (prop_set ps k v)) with
    | Normal (Some doc) =>
        (Normal tt, ({| filePath := p; cache := VObj (grow kind k) (prop_set ps k v) |},
                     write_file p (Encodes doc) w))
    | Normal None =>
        (Abrupt (Builtin "TypeError: nothing to write"),
         ({| filePath := p; cache := VObj (grow kind k) (prop_set ps k v) |}, w))
    | Abrupt e =>
        (Abrupt e, ({| filePath := p; cache := VObj (grow kind k) (prop_set ps k v) |}, w))
    end.
Proof.
  unfold FileAdapter_set, FileAdapter_writeFile, bind, gets, lift, set_cache, modify.
  cbn [fst snd cache filePath js_set].
  destruct (JSON_stringify (VObj (grow kind k) (prop_set ps k v))) as [[doc|]|e];
    reflexivity.
Qed.





(** ** Enumeration order *)

Lemma enumerated_before_asym (k k' : string) :
  enumerated_before k k' = true -> enumerated_before k' k = false.
Proof.
  unfold enumerated_before.
  destruct (array_index k) as [i|], (array_index k') as [j|]; try congruence.
  intros H. apply N.ltb_lt in H. apply N.ltb_ge. lia.
Qed.

Lemma enumerated_before_later (k k' later : string) :
  enumerated_before k k' = true ->
  enumerated_before later k' = false ->
  later <> k /\ enumerated_before later k = false.
Proof.
  unfold enumerated_before. intros Hk Hl.
  destruct (array_index k) as [i|] eqn:Hi; [|discriminate].
  destruct (array_index later) as [l|] eqn:Hlater.
  - destruct (array_index k') as [j|]; [|discriminate].
    apply N.ltb_lt in Hk. apply N.ltb_ge in Hl. split.
    + intros ->. assert (l = i) by congruence. lia.
    + apply N.ltb_ge. lia.
  - split; [|reflexivity]. intros ->. congruence.
Qed.

Lemma prop_set_keeps_order (ps : list (string * value)) (k : string) (v : value) :
  enumeration_order (List.map fst ps) ->
  enumeration_order (List.map fst (prop_set ps k v)).
Proof.
  induction ps as [|[k' x] ps IH]; simpl; [auto|].
  intros [Hall Hord]. destruct (String.eqb k k') eqn:E; simpl.
  - apply String.eqb_eq in E. subst k'. auto.
  - apply String.eqb_neq in E.
    destruct (enumerated_before k k') eqn:Hb; simpl.
    + split; [|auto]. constructor.
      * split; [congruence | now apply enumerated_before_asym].
      * eapply List.Forall_impl; [|exact Hall]. simpl. intros later [_ Hl].
        now apply enumerated_before_later with k'.
    + split; [|auto]. apply List.Forall_forall. intros later Hin.
      apply prop_set_keys in Hin. destruct Hin as [->|Hin]; [auto|].
      rewrite List.Forall_forall in Hall. now apply Hall.
Qed.

Lemma order_has_no_repeats (keys : list string) :
  enumeration_order keys -> List.NoDup keys.
Proof.
  induction keys as [|k keys IH]; simpl; [constructor|].
  intros [Hall Hord]. constructor; [|auto].
  intros Hin. rewrite List.Forall_forall in Hall. destruct (Hall k Hin) as [Hne _].
  now apply Hne.
Qed.

Lemma prop_delete_keys (ps : list (string * value)) (k x : string) :
  In x (List.map fst (prop_delete ps k)) -> In x (List.map fst ps).
Proof.
  induction ps as [|[k' y] ps IH]; simpl; [tauto|].
  destruct (String.eqb k k'); simpl; tauto.
Qed.

Lemma prop_delete_keeps_order (ps : list (string * value)) (k : string) :
  enumeration_order (List.map fst ps) ->
  enumeration_order (List.map fst (prop_delete ps k)).
Proof.
  induction ps as [|[k' x] ps IH]; simpl; [auto|].
  intros [Hall Hord]. destruct (String.eqb k k'); simpl; [exact Hord|].
  split; [|auto]. apply List.Forall_forall. intros later Hin.
  apply prop_delete_keys in Hin. rewrite List.Forall_forall in Hall. now apply Hall.
Qed.







(** ** Backups *)

Lemma FileAdapter_backup_unfold (a : FileAdapter) (w : world) (doc : json) :
  JSON_stringify (cache a) = Normal (Some doc) ->
  FileAdapter_backup (a, w)
  = (Normal tt,
     (a, write_file (filePath a ++ "." ++ string_of_Z (clock w) ++ ".backup") (Encodes doc)
           (elapse (write_file (filePath a) (Encodes doc) w)))).
Proof.
  intros Hdoc.
  unfold FileAdapter_backup, FileAdapter_writeFile, bind, gets, lift, Bun_write,
    Bun_file_text, modify, Date_now.
  cbn [fst snd]. rewrite Hdoc. cbn [fst snd write_file files clock elapse].
  rewrite lookup_insert_eq. destruct a; reflexivity.
Qed.

Lemma with_adapter_same {A} (s : KeyValueStore A) (a : A) :
  adapter s = Some a -> with_adapter (Some a) s = s.
Proof. destruct s; simpl. now intros ->. Qed.

(** X15. Over the file adapter, [createBackup] snapshots what the adapter
    holds, not what the store holds in memory: when the adapter's cache
    serialises to a document, that document is flushed to the store file and
    copied to [<path>.<timestamp>.backup], no other file changes and the
    store is untouched.  The clock is read twice: the adapter reads it to
    name the file, and [createBackup] reads it again, after the copy, for the
    backup hook, which is called with that later reading and with the
    counter, or 0 when versioning is off. *)
Theorem backup_snapshots_the_adapter (s : KeyValueStore FileAdapter) (w : world)
    (a : FileAdapter) (doc : json) :
  adapter s = Some a ->
  JSON_stringify (cache a) = Normal (Some doc) ->
  let backupFile := filePath a ++ "." ++ string_of_Z (clock w) ++ ".backup" in
  let outcome := createBackup FileAdapter_methods (s, w) in
  fst outcome = Normal tt /\
  fst (snd outcome) = s /\
  files (snd (snd outcome)) !! backupFile = Some (Encodes doc) /\
  files (snd (snd outcome)) !! filePath a = Some (Encodes doc) /\
  (forall other, other <> backupFile -> other <> filePath a ->
     files (snd (snd outcome)) !! other = files w !! other) /\
  snd (snd outcome)
  = after_hook "onBackup hook failed:"
      (option_map (fun hook => hook (clock (elapse w)) (Z.max (version s) 0))
         (onBackup (hooks s)))
      (elapse (write_file backupFile (Encodes doc)
                 (elapse (write_file (filePath a) (Encodes doc) w)))).
Proof.
  intros Ha Hdoc backupFile outcome. subst outcome.
  rewrite createBackup_unfold, Ha. cbn [adapter_backup FileAdapter_methods].
  rewrite (FileAdapter_backup_unfold a w doc Hdoc). fold backupFile.
  cbn [fst snd]. rewrite (with_adapter_same s a Ha).
  assert (Hmax : (if (0 <=? version s)%Z then version s else 0) = Z.max (version s) 0).
  { destruct (0 <=? version s)%Z eqn:Hv; [apply Z.leb_le in Hv | apply Z.leb_gt in Hv]; lia. }
  rewrite Hmax.
  assert (Hfiles : forall x w0,
    files (after_hook "onBackup hook failed:" x w0) = files w0).
  { intros [[| pr | payload]|] w0; reflexivity. }
  split; [reflexivity|]. split; [reflexivity|].
  rewrite Hfiles. cbn [files write_file clock elapse].
  split; [apply lookup_insert_eq|]. split; [|split; [|reflexivity]].
  - rewrite lookup_insert. destruct (decide (backupFile = filePath a)); [reflexivity|].
    apply lookup_insert_eq.
  - intros other Hb Hp. now rewrite !lookup_insert_ne by congruence.
Qed.

(** A store that has set a key and not synced it: the backup does not hold
    it.  The clock moves on while the copy is made, and the hook, which here
    gives away the timestamp it is called with, gets the later reading. *)
Lemma backup_snapshots_the_adapter_witness :
  let w := {| console := []; floating := []; intervals := [];
              clock := 1000; ticks := [1007];
              files := {[ "store.json" := Encodes (JObj [("old", JNum 1)]) ]} |} in
  let start := run FileAdapter_methods [OpInit; OpSet (VStr "unsynced") (VNum 2) None]
                 (constructor (telling_backups "store.json") w) in
  let outcome := createBackup FileAdapter_methods start in
  fst outcome = Normal tt /\
  fst (snd outcome) = fst start /\
  files (snd (snd outcome)) !! "store.json.1000.backup"
  = Some (Encodes (JObj [("old", JNum 1)])) /\
  console (snd (snd outcome)) = [("onBackup hook failed:", Thrown (VNum 1007))].
Proof.
  cbv zeta.
  pose proof (backup_snapshots_the_adapter
                (fst (run FileAdapter_methods
                        [OpInit; OpSet (VStr "unsynced") (VNum 2) None]
                        (constructor (telling_backups "store.json")
                           {| console := []; floating := []; intervals := [];
                              clock := 1000; ticks := [1007];
                              files := {[ "store.json"
                                          := Encodes (JObj [("old", JNum 1)]) ]} |})))
                {| console := []; floating := []; intervals := [];
                   clock := 1000; ticks := [1007];
                   files := {[ "store.json" := Encodes (JObj [("old", JNum 1)]) ]} |}
                (caching "store.json" [("old", VNum 1)])
                (JObj [("old", JNum 1)]) eq_refl eq_refl) as H.
  cbv zeta in H. destruct H as (H1 & H2 & H3 & _ & _ & H6).
  split; [exact H1|]. split; [exact H2|]. split; [exact H3|].
  exact (eq_trans (f_equal console H6) eq_refl).
Defined.

(** ** [sync] over the file adapter *)

Lemma sync_as_writes {A} (the : KeyValueAdapterWithBackup A)
    (s : KeyValueStore A) (w : world) (a : A) :
  adapter s = Some a ->
  sync the (s, w)
  = (fst (write_each the (sync_writes s) (a, w)),
     (with_adapter (Some (fst (snd (write_each the (sync_writes s) (a, w))))) s,
      snd (snd (write_each the (sync_writes s) (a, w))))).
Proof.
  intros Ha. unfold sync, bind, this, gets. simpl. rewrite Ha.
  unfold sync_writes. destruct (0 <=? version s)%Z; simpl.
  - rewrite await_unfold, Ha. unfold bind.
    destruct (adapter_set the "__version__" (VNum (version s)) (a, w))
      as [[[]|e] [a1 w1]]; simpl; [|reflexivity].
    rewrite await_unfold. simpl. rewrite push_is_write_each.
    destruct s; reflexivity.
  - rewrite await_unfold, Ha, push_is_write_each. reflexivity.
Qed.

Lemma write_each_keeps_other_keys (writes : list (string * value)) (p : string)
    (kind : object_kind) (ps : list (string * value)) (w : world) (k : string) :
  ~ In k (List.map fst writes) ->
  exists kind' ps',
    fst (snd (write_each FileAdapter_methods writes
                ({| filePath := p; cache := VObj kind ps |}, w)))
    = {| filePath := p; cache := VObj kind' ps' |} /\
    prop_get ps' k = prop_get ps k.
Proof.
  revert kind ps w. induction writes as [|[k0 v0] writes IH]; intros kind ps w Hk.
  - exists kind, ps. split; reflexivity.
  - simpl in Hk. cbn [write_each adapter_set FileAdapter_methods]. unfold bind.
    rewrite FileAdapter_set_unfold.
    destruct (JSON_stringify (VObj (grow kind k0) (prop_set ps k0 v0))) as [[doc|]|e].
    + destruct (IH (grow kind k0) (prop_set ps k0 v0) (write_file p (Encodes doc) w))
        as (kind' & ps' & Heq & Hget); [tauto|].
      exists kind', ps'. split; [exact Heq|].
      rewrite Hget. apply prop_get_set_other. tauto.
    + exists (grow kind k0), (prop_set ps k0 v0). split; [reflexivity|].
      apply prop_get_set_other. tauto.
    + exists (grow kind k0), (prop_set ps k0 v0). split; [reflexivity|].
      apply prop_get_set_other. tauto.
Qed.

Lemma Map_find_in (m : list (string * value)) (k : string) (v : value) :
  Map_find m k = Some v -> In (k, v) m.
Proof.
  induction m as [|[k' x] m IH]; simpl; [discriminate|].
  destruct (String.eqb k k') eqn:E; [|auto].
  apply String.eqb_eq in E. intros [= ->]. subst. auto.
Qed.

Lemma sync_writes_keys {A} (s : KeyValueStore A) (k : string) :
  In k (List.map fst (sync_writes s)) ->
  k = "__version__" \/ (k <> "__version__" /\ In k (List.map fst (memoryMap s))).
Proof.
  unfold sync_writes. rewrite map_app, in_app_iff. intros [H|H].
  - destruct (0 <=? version s)%Z; simpl in H; intuition auto.
  - right. apply in_map_iff in H. destruct H as ([k' v] & <- & Hin).
    apply filter_In in Hin. destruct Hin as [Hin Hk]. simpl in *. split.
    + intros ->. discriminate.
    + now apply (in_map fst) in Hin.
Qed.

(** X16. [sync] only ever calls [set] on the adapter: a key the store no
    longer holds is not removed from the file adapter.  Take a file adapter
    whose cache is a plain object and a map that does not hold the key
    ["__proto__"], which [sync] would assign to the cache.  Whatever the
    outcome of [sync], a key that the map does not hold, the reserved one and
    the names of the prototype apart, reads from the adapter as it did
    before, so a deleted entry stays in the file and is loaded again by the
    next [init]. *)
Theorem sync_never_deletes (s : KeyValueStore FileAdapter) (w : world) (p : string)
    (ps : list (string * value)) (k : string) :
  adapter s = Some (caching p ps) ->
  ~ In proto_key (List.map fst (memoryMap s)) ->
  Map_find (memoryMap s) k = None ->
  k <> "__version__" ->
  inherited k = false ->
  exists a',
    adapter (fst (snd (sync FileAdapter_methods (s, w)))) = Some a' /\
    fst (FileAdapter_get k (a', snd (snd (sync FileAdapter_methods (s, w)))))
    = fst (FileAdapter_get k (caching p ps, w)).
Proof.
  intros Ha _ Hgone Hk _. rewrite (sync_as_writes _ s w _ Ha). cbn [fst snd adapter with_adapter].
  unfold caching.
  destruct (write_each_keeps_other_keys (sync_writes s) p Plain ps w k) as (kind' & ps' & Heq & Hget).
  { intros Hin. apply sync_writes_keys in Hin. destruct Hin as [->|[_ Hin]]; [congruence|].
    apply Map_find_none_keys in Hgone. contradiction. }
  eexists. split; [reflexivity|]. rewrite Heq.
  unfold FileAdapter_get, bind, gets, lift. cbn [fst snd cache js_get].
  now rewrite Hget.
Qed.

(** Set, sync, delete, sync, restart: the deleted key is back. *)
Lemma sync_never_deletes_witness :
  let ops := [OpInit; OpSet (VStr "gone") (VStr "still here") None; OpSync;
              OpDelete (VStr "gone"); OpSync] in
  let old := run FileAdapter_methods ops
               (constructor (over_file "store.json" false) (quiet ∅)) in
  let restarted := run FileAdapter_methods [OpInit]
                     (constructor (over_file "store.json" false) (snd old)) in
  fst (get (VStr "gone") None old) = Normal VUndefined /\
  fst (get (VStr "gone") None restarted) = Normal (VStr "still here") /\
  exists a',
    adapter (fst (snd (sync FileAdapter_methods old))) = Some a' /\
    fst (FileAdapter_get "gone" (a', snd (snd (sync FileAdapter_methods old))))
    = Normal (VStr "still here").
Proof.
  cbv zeta. split; [reflexivity|]. split; [vm_compute; reflexivity|].
  exact (sync_never_deletes
           (fst (run FileAdapter_methods
                   [OpInit; OpSet (VStr "gone") (VStr "still here") None; OpSync;
                    OpDelete (VStr "gone"); OpSync]
                   (constructor (over_file "store.json" false) (quiet ∅))))
           (snd (run FileAdapter_methods
                   [OpInit; OpSet (VStr "gone") (VStr "still here") None; OpSync;
                    OpDelete (VStr "gone"); OpSync]
                   (constructor (over_file "store.json" false) (quiet ∅))))
           "store.json" [("gone", VStr "still here")] "gone"
           eq_refl ltac:(vm_compute; tauto) eq_refl ltac:(discriminate) eq_refl).
Defined.

(** ** From memory to the file and back *)

Lemma survives_is_serializable (v : value) : survives_json v -> serializable v.
Proof. intros (doc & Hdoc & _). now exists (Some doc). Qed.

Lemma prop_set_survives (ps : list (string * value)) (k : string) (v : value) :
  List.Forall (fun kv => survives_json (snd kv)) ps -> survives_json v ->
  List.Forall (fun kv => survives_json (snd kv)) (prop_set ps k v).
Proof.
  intros Hps Hv. induction Hps as [|[k' x] ps Hx Hps IH]; simpl.
  - repeat constructor. exact Hv.
  - destruct (String.eqb k k'); [constructor; assumption|].
    destruct (enumerated_before k k'); repeat constructor; assumption.
Qed.

Lemma members_of_surviving (ps : list (string * value)) :
  List.Forall (fun kv => survives_json (snd kv)) ps ->
  exists ms : list (string * json),
    stringify_members Plain ps = Normal (List.map (fun m => (fst m, Some (snd m))) ms) /\
    List.map (fun m => (fst m, value_of_json (snd m))) ms = ps.
Proof.
  induction 1 as [|[k x] ps (doc & Hdoc & Hback) _ (ms & Hms & Hps)].
  - exists []. split; reflexivity.
  - exists ((k, doc) :: ms). simpl in *. rewrite Hdoc, Hms. split; [reflexivity|].
    now rewrite Hback, Hps.
Qed.

Lemma present_all (ms : list (string * json)) :
  present (List.map (fun m => (fst m, Some (snd m))) ms) = ms.
Proof. induction ms as [|[k j] ms IH]; simpl; [reflexivity | now rewrite IH]. Qed.

Lemma order_of_append (front : list string) (k : string) :
  enumeration_order (front ++ [k]) ->
  List.Forall (fun k' => k <> k' /\ enumerated_before k k' = false) front.
Proof.
  induction front as [|k' front IH]; simpl; [constructor|].
  intros [Hall Hord]. constructor; [|auto].
  rewrite List.Forall_forall in Hall. apply Hall. apply in_or_app. simpl. auto.
Qed.

Lemma order_of_prefix (front back : list string) :
  enumeration_order (front ++ back) -> enumeration_order front.
Proof.
  induction front as [|k front IH]; simpl; [auto|].
  intros [Hall Hord]. split; [|auto].
  apply Forall_app in Hall. tauto.
Qed.

Lemma prop_set_appends (acc : list (string * value)) (k : string) (v : value) :
  List.Forall (fun k' => k <> k' /\ enumerated_before k k' = false) (List.map fst acc) ->
  prop_set acc k v = (acc ++ [(k, v)])%list.
Proof.
  induction acc as [|[k' x] acc IH]; simpl; [reflexivity|].
  intros Hall. inversion Hall as [|? ? [Hne Hb] Hall']; subst.
  apply String.eqb_neq in Hne. rewrite Hne, Hb. now rewrite IH.
Qed.

Lemma build_props_appends (ms : list (string * json)) (acc : list (string * value)) :
  enumeration_order (List.map fst acc ++ List.map fst ms) ->
  build_props ms acc
  = (acc ++ List.map (fun m => (fst m, value_of_json (snd m))) ms)%list.
Proof.
  revert acc. induction ms as [|[k j] ms IH]; intros acc Hord; simpl.
  - now rewrite app_nil_r.
  - assert (Hfront : enumeration_order (List.map fst acc ++ [k])).
    { apply order_of_prefix with (List.map fst ms).
      rewrite <- app_assoc. exact Hord. }
    rewrite prop_set_appends by now apply order_of_append.
    rewrite IH.
    + now rewrite <- app_assoc.
    + rewrite map_app. simpl. now rewrite <- app_assoc.
Qed.

(** An object in enumeration order whose values survive JSON survives it. *)
Lemma object_survives (ps : list (string * value)) :
  enumeration_order (List.map fst ps) ->
  List.Forall (fun kv => survives_json (snd kv)) ps ->
  survives_json (VObj Plain ps).
Proof.
  intros Hord Hps. destruct (members_of_surviving ps Hps) as (ms & Hms & Hback).
  exists (JObj ms). split.
  - rewrite JSON_stringify_object, Hms, present_all. reflexivity.
  - rewrite value_of_json_object, build_props_appends; simpl.
    + now rewrite Hback.
    + rewrite <- Hback, map_map in Hord. simpl in Hord.
      erewrite map_ext; [exact Hord|]. reflexivity.
Qed.

Lemma assign_all_keeps_order (writes ps : list (string * value)) :
  enumeration_order (List.map fst ps) ->
  enumeration_order (List.map fst (assign_all writes ps)).
Proof.
  revert ps. induction writes as [|[k v] writes IH]; intros ps Hord; [exact Hord|].
  apply IH. now apply prop_set_keeps_order.
Qed.

Lemma assign_all_survives (writes ps : list (string * value)) :
  List.Forall (fun kv => survives_json (snd kv)) writes ->
  List.Forall (fun kv => survives_json (snd kv)) ps ->
  List.Forall (fun kv => survives_json (snd kv)) (assign_all writes ps).
Proof.
  intros Hw. revert ps. induction Hw as [|[k v] writes Hv Hw IH]; intros ps Hps; [exact Hps|].
  apply IH. now apply prop_set_survives.
Qed.

Lemma assign_all_untouched (writes ps : list (string * value)) (k : string) :
  ~ In k (List.map fst writes) -> prop_get (assign_all writes ps) k = prop_get ps k.
Proof.
  revert ps. induction writes as [|[k0 v0] writes IH]; intros ps Hk; [reflexivity|].
  simpl in Hk. unfold assign_all. simpl. fold (assign_all writes (prop_set ps k0 v0)).
  rewrite IH by tauto. apply prop_get_set_other. tauto.
Qed.

Lemma assign_all_finds (writes ps : list (string * value)) (k : string) (v : value) :
  List.NoDup (List.map fst writes) -> In (k, v) writes ->
  prop_get (assign_all writes ps) k = Some v.
Proof.
  revert ps. induction writes as [|[k0 v0] writes IH]; intros ps Hnd Hin; [contradiction|].
  simpl in Hnd. inversion Hnd as [|? ? Hfresh Hnd']; subst.
  unfold assign_all. simpl. fold (assign_all writes (prop_set ps k0 v0)).
  destruct Hin as [[= -> ->]|Hin].
  - rewrite assign_all_untouched by assumption. apply prop_get_set_same.
  - now apply IH.
Qed.

(** Writing pairs whose values serialise to a file adapter with such a cache
    goes through, and leaves the file holding the text of the final cache. *)
Lemma write_each_to_file (writes : list (string * value)) (p : string)
    (ps : list (string * value)) (w : world) :
  List.Forall (fun kv => serializable (snd kv)) writes ->
  List.Forall (fun kv => serializable (snd kv)) ps ->
  exists w',
    write_each FileAdapter_methods writes (caching p ps, w)
    = (Normal tt, (caching p (assign_all writes ps), w')) /\
    (writes <> [] ->
     exists doc, JSON_stringify (VObj Plain (assign_all writes ps)) = Normal (Some doc) /\
                 files w' !! p = Some (Encodes doc)).
Proof.
  intros Hw. revert ps w. induction Hw as [|[k v] writes Hv Hw IH]; intros ps w Hps.
  - exists w. split; [reflexivity | congruence].
  - cbn [write_each adapter_set FileAdapter_methods]. unfold bind, caching.
    rewrite FileAdapter_set_unfold. cbn [grow].
    pose proof (prop_set_serializable ps k v Hps Hv) as Hps'.
    destruct (object_of_serializable Plain _ Hps') as [doc Hdoc]. rewrite Hdoc.
    destruct (IH (prop_set ps k v) (write_file p (Encodes doc) w) Hps') as (w' & Heq & Hfile).
    exists w'. split; [exact Heq|]. intros _.
    destruct writes as [|kv writes'].
    + simpl in Heq. injection Heq as <-. exists doc. split; [exact Hdoc|].
      simpl. apply lookup_insert_eq.
    + apply Hfile. discriminate.
Qed.

Lemma FileAdapter_init_reads (p : string) (c : value) (w : world) (doc : json)
    (ps : list (string * value)) :
  files w !! p = Some (Encodes doc) ->
  value_of_json doc = VObj Plain ps ->
  FileAdapter_init ({| filePath := p; cache := c |}, w) = (Normal tt, (caching p ps, w)).
Proof.
  intros Hfile Hdoc.
  unfold FileAdapter_init, try_catch, bind, gets, Bun_file_text, lift, set_cache, modify.
  cbn [fst snd filePath]. rewrite Hfile. cbn [JSON_parse fst snd filePath].
  rewrite Hdoc. reflexivity.
Qed.

Lemma filter_keeps_unique (f : string * value -> bool) (m : list (string * value)) :
  unique_keys m -> unique_keys (List.filter f m).
Proof.
  unfold unique_keys. induction m as [|kv m IH]; simpl; intros Hm; [constructor|].
  inversion Hm as [|? ? Hfresh Hm']; subst.
  destruct (f kv); simpl; [|auto]. constructor; [|auto].
  intros Hin. apply Hfresh. apply in_map_iff in Hin. destruct Hin as (kv' & Heq & Hin).
  apply filter_In in Hin. rewrite <- Heq. apply in_map. tauto.
Qed.

Lemma sync_writes_unique {A} (s : KeyValueStore A) :
  unique_keys (memoryMap s) -> List.NoDup (List.map fst (sync_writes s)).
Proof.
  intros Hm. unfold sync_writes. rewrite map_app.
  apply List.NoDup_app.
  - destruct (0 <=? version s)%Z; repeat constructor. simpl. tauto.
  - now apply filter_keeps_unique.
  - intros k Hk Hin. destruct (0 <=? version s)%Z; [|contradiction].
    destruct Hk as [<-|[]]. apply in_map_iff in Hin.
    destruct Hin as ([k v] & Heq & Hin). apply filter_In in Hin.
    simpl in *. subst k. destruct Hin as [_ Hin]. discriminate.
Qed.

Lemma sync_writes_survive {A} (s : KeyValueStore A) :
  List.Forall (fun kv => survives_json (snd kv)) (memoryMap s) ->
  List.Forall (fun kv => survives_json (snd kv)) (sync_writes s).
Proof.
  intros Hm. unfold sync_writes. apply Forall_app. split.
  - destruct (0 <=? version s)%Z; repeat constructor.
    exists (JNum (version s)). split; reflexivity.
  - apply List.Forall_forall. intros kv Hin. apply filter_In in Hin.
    rewrite List.Forall_forall in Hm. now apply Hm.
Qed.

(** X17. Round trip through the file.  Take a store over the file adapter
    whose map holds each key once, not the key ["__proto__"], and only values
    that survive JSON, the adapter's cache being a plain object of such
    values in enumeration order.  Then [sync] succeeds, and a new store over the same path, after [init],
    returns for every key but the reserved one the value the old store held;
    and if both keep a version, the new counter is the old one. *)
Theorem synced_values_survive_restart (s : KeyValueStore FileAdapter) (w : world)
    (p : string) (ps : list (string * value)) (versioned : bool)
    (k : string) (v : value) :
  adapter s = Some (caching p ps) ->
  ~ In proto_key (List.map fst (memoryMap s)) ->
  enumeration_order (List.map fst ps) ->
  List.Forall (fun kv => survives_json (snd kv)) ps ->
  unique_keys (memoryMap s) ->
  List.Forall (fun kv => survives_json (snd kv)) (memoryMap s) ->
  Map_find (memoryMap s) k = Some v ->
  k <> "__version__" ->
  let synced := sync FileAdapter_methods (s, w) in
  let restarted :=
    init FileAdapter_methods (constructor (over_file p versioned) (snd (snd synced))) in
  fst synced = Normal tt /\
  fst restarted = Normal tt /\
  get (VStr k) None (snd restarted) = (Normal v, snd restarted) /\
  (0 <= version s -> versioned = true -> version (fst (snd restarted)) = version s).
Proof.
  intros Ha _ Hord Hps Huniq Hmem Hk Hne synced restarted. subst restarted synced.
  rewrite (sync_as_writes _ s w _ Ha).
  pose proof (sync_writes_survive s Hmem) as Hwrites.
  destruct (write_each_to_file (sync_writes s) p ps w) as (w' & Heq & Hfile).
  { eapply List.Forall_impl; [|exact Hwrites]. intros kv. apply survives_is_serializable. }
  { eapply List.Forall_impl; [|exact Hps]. intros kv. apply survives_is_serializable. }
  rewrite Heq. cbn [fst snd].
  assert (Hin : In (k, v) (sync_writes s)).
  { unfold sync_writes. apply in_or_app. right. apply filter_In. split.
    - now apply Map_find_in.
    - simpl. apply negb_true_iff. apply String.eqb_neq. exact Hne. }
  destruct Hfile as (doc & Hdoc & Hdisk); [intros E; rewrite E in Hin; contradiction|].
  set (final := assign_all (sync_writes s) ps) in *.
  assert (Hfinal_ord : enumeration_order (List.map fst final))
    by now apply assign_all_keeps_order.
  assert (Hback : value_of_json doc = VObj Plain final).
  { destruct (object_survives final Hfinal_ord) as (doc' & Hdoc' & Hback).
    - now apply assign_all_survives.
    - congruence. }
  split; [reflexivity|].
  assert (Hstart : constructor (over_file p versioned) w'
                   = ({| memoryMap := []; adapter := Some (FileAdapter_constructor p);
                         hooks := no_hooks;
                         version := if versioned then 0 else -1;
                         syncInterval := None |}, w')).
  { unfold constructor, over_file. simpl. destruct versioned; reflexivity. }
  rewrite Hstart, init_unfold. cbn [adapter adapter_init adapter_all FileAdapter_methods].
  unfold FileAdapter_constructor.
  rewrite (FileAdapter_init_reads p empty_object w' doc final Hdisk Hback).
  unfold FileAdapter_all, bind, gets, ret. cbn [fst snd cache caching spread].
  assert (Hmap : forall k0 v0, prop_get final k0 = Some v0 ->
            forall s0 : KeyValueStore FileAdapter,
              memoryMap s0 = [] ->
              Map_find (memoryMap (loaded final s0)) k0 = Some v0).
  { intros k0 v0 Hget s0 Hs0. unfold loaded.
    destruct (prop_get final "__version__") as [[]|];
      try destruct (0 <=? version s0)%Z; simpl;
      apply fold_set_finds; try assumption; now apply order_has_no_repeats. }
  split; [reflexivity|]. split.
  - rewrite get_unfold. unfold Map_get.
    rewrite (Hmap k v); [destruct v; reflexivity | | reflexivity].
    apply assign_all_finds; [now apply sync_writes_unique | exact Hin].
  - intros Hv ->. cbn [fst snd]. unfold loaded.
    assert (Hver : prop_get final "__version__" = Some (VNum (version s))).
    { apply assign_all_finds; [now apply sync_writes_unique|].
      unfold sync_writes. apply in_or_app. left.
      apply Z.leb_le in Hv. rewrite Hv. simpl. auto. }
    rewrite Hver. reflexivity.
Qed.

(** The store of the file-adapter test, with a nested value and versioning. *)
Lemma synced_values_survive_restart_witness :
  let user := VObj Plain [("name", VStr "Brandon"); ("tags", array_of [VNum 1; VNull])] in
  let old := run FileAdapter_methods
               [OpInit; OpSet (VStr "key1") (VStr "value1") None;
                OpSet (VStr "user") user None]
               (constructor (over_file "store.json" true) (quiet ∅)) in
  let synced := sync FileAdapter_methods old in
  let restarted :=
    init FileAdapter_methods (constructor (over_file "store.json" true) (snd (snd synced))) in
  fst synced = Normal tt /\
  fst restarted = Normal tt /\
  get (VStr "user") None (snd restarted) = (Normal user, snd restarted) /\
  (0 <= 2 -> true = true -> version (fst (snd restarted)) = 2).
Proof.
  cbv zeta.
  refine (synced_values_survive_restart
            (fst (run FileAdapter_methods
                    [OpInit; OpSet (VStr "key1") (VStr "value1") None;
                     OpSet (VStr "user")
                       (VObj Plain [("name", VStr "Brandon");
                                    ("tags", array_of [VNum 1; VNull])]) None]
                    (constructor (over_file "store.json" true) (quiet ∅))))
            (quiet {[ "store.json" := Encodes (JObj []) ]})
            "store.json" [] true "user"
            (VObj Plain [("name", VStr "Brandon"); ("tags", array_of [VNum 1; VNull])])
            eq_refl _ I _ _ _ eq_refl _).
  - vm_compute. intuition discriminate.
  - constructor.
  - repeat constructor; simpl; intuition discriminate.
  - repeat constructor; eexists; split; reflexivity.
  - discriminate.
Defined.

Lemma prop_set_same_value (ps : list (string * value)) (k : string) (v : value) :
  enumeration_order (List.map fst ps) ->
  prop_get ps k = Some v ->
  prop_set ps k v = ps.
Proof.
  induction ps as [|[k' x] ps IH]; simpl; [discriminate|].
  intros [Hall Hord]. destruct (String.eqb k k') eqn:E.
  - apply String.eqb_eq in E. subst k'. now intros [= ->].
  - intros Hget.
    assert (Hin : In k (List.map fst ps)).
    { destruct (in_dec string_dec k (List.map fst ps)) as [H|H]; [exact H|].
      apply prop_get_none_keys in H. congruence. }
    rewrite List.Forall_forall in Hall. destruct (Hall k Hin) as [_ ->].
    now rewrite IH.
Qed.

Lemma write_file_same (p : string) (t : text) (w : world) :
  files w !! p = Some t -> write_file p t w = w.
Proof.
  intros H. destruct w as [c f i cl fs]. unfold write_file. simpl in *.
  now rewrite insert_id.
Qed.

Lemma write_each_again (writes : list (string * value)) (p : string)
    (ps : list (string * value)) (w : world) (doc : json) :
  enumeration_order (List.map fst ps) ->
  (forall k v, In (k, v) writes -> prop_get ps k = Some v) ->
  JSON_stringify (VObj Plain ps) = Normal (Some doc) ->
  files w !! p = Some (Encodes doc) ->
  write_each FileAdapter_methods writes (caching p ps, w) = (Normal tt, (caching p ps, w)).
Proof.
  intros Hord Hheld Hdoc Hfile. induction writes as [|[k v] writes IH]; [reflexivity|].
  cbn [write_each adapter_set FileAdapter_methods]. unfold bind, caching.
  rewrite FileAdapter_set_unfold. cbn [grow].
  rewrite prop_set_same_value by (auto; apply Hheld; simpl; auto).
  rewrite Hdoc, write_file_same by assumption.
  apply IH. intros k' v' Hin. apply Hheld. simpl. auto.
Qed.

(** X18. Under the conditions of X17 (a plain cache in enumeration order,
    a map that holds each key once and not the key ["__proto__"], values that
    survive JSON) a [sync] may be repeated: a second [sync] right after the
    first succeeds and changes nothing, neither the store, nor the adapter's
    cache, nor any file. *)
Theorem sync_twice_is_sync_once (s : KeyValueStore FileAdapter) (w : world)
    (p : string) (ps : list (string * value)) :
  adapter s = Some (caching p ps) ->
  ~ In proto_key (List.map fst (memoryMap s)) ->
  enumeration_order (List.map fst ps) ->
  List.Forall (fun kv => survives_json (snd kv)) ps ->
  unique_keys (memoryMap s) ->
  List.Forall (fun kv => survives_json (snd kv)) (memoryMap s) ->
  let once := sync FileAdapter_methods (s, w) in
  fst once = Normal tt /\
  sync FileAdapter_methods (snd once) = (Normal tt, snd once).
Proof.
  intros Ha _ Hord Hps Huniq Hmem once. subst once.
  rewrite (sync_as_writes _ s w _ Ha).
  pose proof (sync_writes_survive s Hmem) as Hwrites.
  pose proof (sync_writes_unique s Huniq) as Hnd.
  destruct (write_each_to_file (sync_writes s) p ps w) as (w' & Heq & Hfile).
  { eapply List.Forall_impl; [|exact Hwrites]. intros kv. apply survives_is_serializable. }
  { eapply List.Forall_impl; [|exact Hps]. intros kv. apply survives_is_serializable. }
  rewrite Heq. cbn [fst snd]. split; [reflexivity|].
  rewrite (sync_as_writes _
             (with_adapter (Some (caching p (assign_all (sync_writes s) ps))) s) w'
             (caching p (assign_all (sync_writes s) ps)) eq_refl).
  change (sync_writes (with_adapter (Some (caching p (assign_all (sync_writes s) ps))) s))
    with (sync_writes s).
  assert (Hagain :
    write_each FileAdapter_methods (sync_writes s)
      (caching p (assign_all (sync_writes s) ps), w')
    = (Normal tt, (caching p (assign_all (sync_writes s) ps), w'))).
  { destruct (sync_writes s) as [|kv writes] eqn:Hws; [reflexivity|].
    destruct Hfile as (doc & Hdoc & Hdisk); [discriminate|].
    apply write_each_again with doc.
    - now apply assign_all_keeps_order.
    - intros k v Hin. now apply assign_all_finds.
    - exact Hdoc.
    - exact Hdisk. }
  rewrite Hagain. cbn [fst snd]. reflexivity.
Qed.

Lemma sync_twice_is_sync_once_witness :
  let old := run FileAdapter_methods
               [OpInit; OpSet (VStr "key1") (VStr "value1") None;
                OpSet (VStr "n") (VNum 3) None]
               (constructor (over_file "store.json" true) (quiet ∅)) in
  let once := sync FileAdapter_methods old in
  fst once = Normal tt /\
  sync FileAdapter_methods (snd once) = (Normal tt, snd once).
Proof.
  cbv zeta.
  refine (sync_twice_is_sync_once
            (fst (run FileAdapter_methods
                    [OpInit; OpSet (VStr "key1") (VStr "value1") None;
                     OpSet (VStr "n") (VNum 3) None]
                    (constructor (over_file "store.json" true) (quiet ∅))))
            (quiet {[ "store.json" := Encodes (JObj []) ]})
            "store.json" [] eq_refl _ I _ _ _).
  - vm_compute. intuition discriminate.
  - constructor.
  - repeat constructor; simpl; intuition discriminate.
  - repeat constructor; eexists; split; reflexivity.
Defined.

(** ** When a write fails *)

Lemma write_each_stops {A} (the : KeyValueAdapterWithBackup A)
    (done rest : list (string * value)) (k : string) (v : value)
    (aw aw1 aw2 : A * world) (e : exn) :
  write_each the done aw = (Normal tt, aw1) ->
  adapter_set the k v aw1 = (Abrupt e, aw2) ->
  write_each the (done ++ (k, v) :: rest) aw = (Abrupt e, aw2).
Proof.
  revert aw. induction done as [|[k0 v0] done IH]; intros aw Hdone Hfail.
  - simpl in *. injection Hdone as <-. unfold bind. now rewrite Hfail.
  - simpl in *. unfold bind in *.
    destruct (adapter_set the k0 v0 aw) as [[[]|e0] aw']; [|discriminate].
    now apply IH.
Qed.

(** X19. [sync] does not roll back.  When the writes it has to make go well
    up to some pair and the adapter refuses that pair, [sync] fails with the
    adapter's error; the adapter and the world are as the failed call left
    them, earlier writes included, the pairs after it are not attempted, and
    the store's map and counter are as before. *)
Theorem sync_stops_at_first_failure {A : Type} (the : KeyValueAdapterWithBackup A)
    (s : KeyValueStore A) (w : world) (a : A)
    (done rest : list (string * value)) (k : string) (v : value)
    (aw1 aw2 : A * world) (e : exn) :
  adapter s = Some a ->
  sync_writes s = (done ++ (k, v) :: rest)%list ->
  write_each the done (a, w) = (Normal tt, aw1) ->
  adapter_set the k v aw1 = (Abrupt e, aw2) ->
  sync the (s, w) = (Abrupt e, (with_adapter (Some (fst aw2)) s, snd aw2)).
Proof.
  intros Ha Hws Hdone Hfail.
  rewrite (sync_as_writes the s w a Ha), Hws.
  now rewrite (write_each_stops the done rest k v (a, w) aw1 aw2 e Hdone Hfail).
Qed.

(** Three entries, the middle one a bigint that a validator let in: the
    first reaches the file, the third does not. *)
Lemma sync_stops_at_first_failure_witness :
  let old := run FileAdapter_methods
               [OpInit; OpSet (VStr "a") (VNum 1) None;
                OpSet (VStr "b") VNull (Some (fun _ => Returns (VBigInt 2)));
                OpSet (VStr "c") (VNum 3) None]
               (constructor (over_file "store.json" false) (quiet ∅)) in
  sync FileAdapter_methods old
  = (Abrupt (Builtin "TypeError: cannot serialize BigInt"),
     (with_adapter (Some (caching "store.json" [("a", VNum 1); ("b", VBigInt 2)])) (fst old),
      quiet {[ "store.json" := Encodes (JObj [("a", JNum 1)]) ]})).
Proof.
  cbv zeta.
  exact (sync_stops_at_first_failure FileAdapter_methods
           (fst (run FileAdapter_methods
                   [OpInit; OpSet (VStr "a") (VNum 1) None;
                    OpSet (VStr "b") VNull (Some (fun _ => Returns (VBigInt 2)));
                    OpSet (VStr "c") (VNum 3) None]
                   (constructor (over_file "store.json" false) (quiet ∅))))
           (quiet {[ "store.json" := Encodes (JObj []) ]})
           (caching "store.json" [])
           [("a", VNum 1)] [("c", VNum 3)] "b" (VBigInt 2)
           (caching "store.json" [("a", VNum 1)],
            quiet {[ "store.json" := Encodes (JObj [("a", JNum 1)]) ]})
           (caching "store.json" [("a", VNum 1); ("b", VBigInt 2)],
            quiet {[ "store.json" := Encodes (JObj [("a", JNum 1)]) ]})
           (Builtin "TypeError: cannot serialize BigInt")
           eq_refl eq_refl ltac:(vm_compute; reflexivity) ltac:(vm_compute; reflexivity)).
Defined.

(** * The SQLite adapter, continued *)

Lemma collect_is_assign_all (rows : list (string * text)) (data : list (string * value)) :
  collect rows data
  = assign_all (List.map (fun row => (fst row, parse_or_raw (snd row))) rows) data.
Proof.
  revert data. induction rows as [|[k t] rows IH]; intros data; [reflexivity|].
  simpl. rewrite IH. reflexivity.
Qed.

Lemma rows_find_in (rows : list (string * text)) (key : string) (column : text) :
  rows_find rows key = Some column -> In (key, column) rows.
Proof.
  induction rows as [|[k t] rows IH]; simpl; [discriminate|].
  destruct (String.eqb key k) eqn:E; [|auto].
  apply String.eqb_eq in E. intros [= ->]. subst. auto.
Qed.

(** X20. [all()] of an initialised SQLite adapter agrees with the rows of the
    table: when the driver returns rows with distinct keys, none of them
    ["__proto__"] (an assignment to which adds no property to the record),
    the record has as its own property under each row's key the value its
    column spells, or the raw text when the column is not JSON, and no own
    property for a key without a row. *)
Theorem sqlite_all_lists_every_row {Database : Type} (sqlite : bun_sqlite Database)
    (a : SqliteAdapter Database) (w : world) (d d' : Database) (w' : world)
    (rows : list (string * text)) (key : string) :
  db a = Some d ->
  Database_all sqlite (tableName a) (d, w) = (Normal rows, (d', w')) ->
  List.NoDup (List.map fst rows) ->
  ~ In proto_key (List.map fst rows) ->
  exists data,
    fst (SqliteAdapter_all sqlite (a, w)) = Normal data /\
    prop_get data key = option_map parse_or_raw (rows_find rows key).
Proof.
  intros Hdb Hrows Hnd _.
  unfold SqliteAdapter_all, bind, ensureInitialized, gets, on_db, ret. simpl.
  rewrite Hdb. simpl. rewrite Hdb, Hrows. simpl.
  eexists. split; [reflexivity|].
  rewrite collect_is_assign_all.
  destruct (rows_find rows key) as [column|] eqn:Hrow; simpl.
  - apply assign_all_finds.
    + now rewrite map_map.
    + apply rows_find_in in Hrow.
      now apply (in_map (fun row => (fst row, parse_or_raw (snd row)))) in Hrow.
  - rewrite assign_all_untouched; [reflexivity|].
    rewrite map_map. simpl. clear -Hrow.
    induction rows as [|[k t] rows IH]; simpl in *; [tauto|].
    destruct (String.eqb key k) eqn:E; [discriminate|].
    apply String.eqb_neq in E. intros [H|H]; [congruence | now apply IH].
Qed.

Lemma sqlite_all_lists_every_row_witness :
  let a : SqliteAdapter (list (string * text)) :=
    {| db := Some [("legacy", Malformed "plain text"); ("n", Encodes (JNum 3))];
       tableName := "key_value_store";
       config := {| path := "test.db"; config_tableName := None |} |} in
  exists data,
    fst (SqliteAdapter_all rows_driver (a, quiet ∅)) = Normal data /\
    prop_get data "legacy" = Some (VStr "plain text").
Proof.
  exact (sqlite_all_lists_every_row rows_driver
           {| db := Some [("legacy", Malformed "plain text"); ("n", Encodes (JNum 3))];
              tableName := "key_value_store";
              config := {| path := "test.db"; config_tableName := None |} |}
           (quiet ∅) _ _ (quiet ∅)
           [("legacy", Malformed "plain text"); ("n", Encodes (JNum 3))] "legacy"
           eq_refl eq_refl
           ltac:(repeat constructor; simpl; intuition discriminate)
           ltac:(simpl; intuition discriminate)).
Defined.
